(** * A shallow embedding of [add_video_doc.py]

    The script places a new video-tutorial page into the documentation
    site: it inserts a node into the JSON navigation menu, inserts an entry
    into the English YAML locale catalog, derives the new page from a
    template by regular-expression substitutions, and patches the parent
    pages with a [{partialdoc}] reference.

    Modelling conventions.
    - A JSON menu node is a [node]: its optional ["id"] and its optional
      ["children"] list (the key present or absent).  Other keys of a node
      are carried along untouched by the script and are left out.
    - Text (file contents) is [list ascii]; identifiers and YAML keys are
      [string].
    - A YAML document is a [yval]: a mapping (an [OrderedDict], i.e. an
      association list with distinct keys, in document order) or a scalar.
    - Python exceptions are the constructors of [exn]; effectful code runs
      in the state-and-error monad [M] over a file system. *)

From Stdlib Require Import String Ascii.
From Stdlib Require Import List Bool ZArith Lia.
Import ListNotations.
Open Scope string_scope.
Open Scope nat_scope.
Open Scope list_scope.
Set Warnings "-register-all".

(* ------------------------------------------------------------------ *)
(** ** The menu tree ([add_to_menu], lines 202-216) *)

Inductive node : Type :=
  Node (id : option string) (children : option (list node)).

Definition node_id (n : node) : option string :=
  match n with Node i _ => i end.

Definition node_children (n : node) : option (list node) :=
  match n with Node _ ch => ch end.

(** [item.get('id') == selected_tutorial_id] *)
Definition id_matches (anchor : string) (item : node) : bool :=
  match node_id item with
  | Some i => String.eqb i anchor
  | None => false
  end.

Section SearchAndInsert.
Variables (selected_tutorial_id : string) (new_entry : node).

(** The loop of [search_and_insert] over one sibling list, given the
    recursive search into an item's children.  The boolean is the returned
    flag; the list is [menu_list] after the in-place [insert]. *)
Definition search_loop (search_children : node -> option node)
  : list node -> bool * list node :=
  fix go (menu_list : list node) : bool * list node :=
  match menu_list with
  | [] => (false, [])
  | item :: rest =>
      if id_matches selected_tutorial_id item
      then (true, item :: new_entry :: rest)       (* menu_list.insert(i + 1, new_entry) *)
      else match search_children item with
           | Some item' => (true, item' :: rest)    (* found below this item *)
           | None => let '(b, rest') := go rest in (b, item :: rest')
           end
  end.

(** [if 'children' in item: if search_and_insert(item['children']): ...]:
    [Some item'] when the recursive call returned [True], [item'] being the
    item with its children list mutated. *)
Fixpoint search_children (item : node) : option node :=
  match item with
  | Node i (Some ch) =>
      match search_loop search_children ch with
      | (true, ch') => Some (Node i (Some ch'))
      | (false, _) => None
      end
  | Node _ None => None
  end.

Definition search_and_insert : list node -> bool * list node :=
  search_loop search_children.

(** [add_to_menu(data)] *)
Definition add_to_menu (data : list node) : bool * list node :=
  search_and_insert data.

End SearchAndInsert.

(** Depth-first preorder flattening of every node (its identifier). *)
Definition flat_loop (f : node -> list (option string))
  : list node -> list (option string) :=
  fix go (l : list node) : list (option string) :=
  match l with
  | [] => []
  | x :: r => f x ++ go r
  end.

Fixpoint flat_node (n : node) : list (option string) :=
  match n with
  | Node i None => [i]
  | Node i (Some ch) => i :: flat_loop flat_node ch
  end.

Definition flat_forest : list node -> list (option string) :=
  flat_loop flat_node.

Definition opt_eqb (a b : option string) : bool :=
  match a, b with
  | Some x, Some y => String.eqb x y
  | None, None => true
  | _, _ => false
  end.

(** [adjacent x y l]: [y] immediately follows some [x] in [l]. *)
Fixpoint adjacent (x y : option string) (l : list (option string)) : bool :=
  match l with
  | a :: ((b :: _) as r) => (opt_eqb a x && opt_eqb b y) || adjacent x y r
  | _ => false
  end.

(* ------------------------------------------------------------------ *)
(** ** Text helpers *)

Definition text := list ascii.

(** A string literal as text. *)
Definition T (s : string) : text := list_ascii_of_string s.

(** [s.startswith(p)] *)
Fixpoint prefixb (p s : text) : bool :=
  match p, s with
  | [], _ => true
  | c :: p', d :: s' => Ascii.eqb c d && prefixb p' s'
  | _ :: _, [] => false
  end.

(** [p in s] for Python strings (substring test). *)
Fixpoint infixb (p s : text) : bool :=
  prefixb p s || match s with [] => false | _ :: s' => infixb p s' end.

(** The longest prefix of [s] whose characters satisfy [f]. *)
Fixpoint take_while (f : ascii -> bool) (s : text) : text :=
  match s with
  | c :: s' => if f c then c :: take_while f s' else []
  | [] => []
  end.

(* ------------------------------------------------------------------ *)
(** ** Python exceptions and the error monad *)

Inductive exn : Type :=
| KeyError | TypeError | AttributeError | IndexError | ValueError
| FileNotFoundError | JSONDecodeError.

Inductive result (A : Type) : Type :=
| Ok (a : A)
| Err (e : exn).
Arguments Ok {A} a.
Arguments Err {A} e.

Definition rbind {A B} (m : result A) (k : A -> result B) : result B :=
  match m with Ok a => k a | Err e => Err e end.

Notation "x <- m ;; k" := (rbind m (fun x => k))
  (at level 61, m at next level, right associativity).

(* ------------------------------------------------------------------ *)
(** ** The YAML catalog ([update_yaml_with_new_entry], lines 79-109) *)

(** A loaded YAML value.  Mappings are [OrderedDict]s (the constructor
    registered at line 227), kept as association lists in document order;
    [YStr] is a string scalar; [YOther] any other scalar (number, boolean,
    null). *)
Inductive yval : Type :=
| YMap (kvs : list (string * yval))
| YStr (s : string)
| YOther.

Section OrderedDict.
Variable V : Type.

(** [k in d] *)
Fixpoint od_contains (k : string) (d : list (string * V)) : bool :=
  match d with
  | [] => false
  | (k', _) :: r => String.eqb k' k || od_contains k r
  end.

(** [d[k]] *)
Fixpoint od_get (k : string) (d : list (string * V)) : option V :=
  match d with
  | [] => None
  | (k', v) :: r => if String.eqb k' k then Some v else od_get k r
  end.

(** [d[k] = v]: an existing key keeps its position and gets the new value;
    a new key goes to the end. *)
Fixpoint od_setitem (k : string) (v : V) (d : list (string * V)) : list (string * V) :=
  match d with
  | [] => [(k, v)]
  | (k', v') :: r => if String.eqb k' k then (k', v) :: r else (k', v') :: od_setitem k v r
  end.

End OrderedDict.
Arguments od_contains {V} k d.
Arguments od_get {V} k d.
Arguments od_setitem {V} k v d.

(** [k in y] *)
Definition py_in (k : string) (y : yval) : result bool :=
  match y with
  | YMap kvs => Ok (od_contains k kvs)
  | YStr s => Ok (infixb (T k) (T s))
  | YOther => Err TypeError
  end.

(** [y[k]] *)
Definition py_getitem (y : yval) (k : string) : result yval :=
  match y with
  | YMap kvs => match od_get k kvs with Some v => Ok v | None => Err KeyError end
  | YStr _ => Err TypeError
  | YOther => Err TypeError
  end.

(** [y[k] = v] *)
Definition py_setitem (y : yval) (k : string) (v : yval) : result yval :=
  match y with
  | YMap kvs => Ok (YMap (od_setitem k v kvs))
  | _ => Err TypeError
  end.

(** [y.items()] *)
Definition py_items (y : yval) : result (list (string * yval)) :=
  match y with
  | YMap kvs => Ok kvs
  | _ => Err AttributeError
  end.

(** [yaml_data['en'][k] = v]: the assignment mutates the mapping stored
    under ['en'], which is the same object as [yaml_data['en']]. *)
Definition set_in_en (yaml_data : yval) (k : string) (v : yval) : result yval :=
  en <- py_getitem yaml_data "en" ;;
  en' <- py_setitem en k v ;;
  py_setitem yaml_data "en" en'.

(** The loop of lines 96-104, building [new_documentation]. *)
Fixpoint copy_entries (selected_tutorial_id : string)
    (new_yaml_entry : list (string * yval))
    (items : list (string * yval)) (new_documentation : list (string * yval))
  : result (list (string * yval)) :=
  match items with
  | [] => Ok new_documentation
  | (key, value) :: rest =>
      let nd := od_setitem key value new_documentation in
      if String.eqb key selected_tutorial_id then
        match new_yaml_entry with
        | [] => Err IndexError                      (* list(new_yaml_entry.keys())[0] *)
        | (new_entry_key, _) :: _ =>
            match od_get new_entry_key new_yaml_entry with
            | Some v => copy_entries selected_tutorial_id new_yaml_entry rest
                          (od_setitem new_entry_key v nd)
            | None => Err KeyError
            end
        end
      else copy_entries selected_tutorial_id new_yaml_entry rest nd
  end.

Definition update_yaml_with_new_entry (yaml_data : yval)
    (selected_tutorial_id : string) (new_yaml_entry : list (string * yval))
  : result yval :=
  (* if 'en' not in yaml_data or 'docs' not in yaml_data['en']: *)
  missing <- (c1 <- py_in "en" yaml_data ;;
              if negb c1 then Ok true
              else (en <- py_getitem yaml_data "en" ;;
                    c2 <- py_in "docs" en ;; Ok (negb c2))) ;;
  yaml_data <- (if missing then set_in_en yaml_data "docs" (YMap []) else Ok yaml_data) ;;
  en <- py_getitem yaml_data "en" ;;
  docs <- py_getitem en "docs" ;;
  items <- py_items docs ;;
  new_documentation <- copy_entries selected_tutorial_id new_yaml_entry items [] ;;
  set_in_en yaml_data "docs" (YMap new_documentation).

(** The documentation section [yaml_data['en']['docs']] when it is a
    mapping. *)
Definition docs_section (y : yval) : option (list (string * yval)) :=
  match py_getitem y "en" with
  | Ok en => match py_getitem en "docs" with
             | Ok (YMap kvs) => Some kvs
             | _ => None
             end
  | Err _ => None
  end.

(* ------------------------------------------------------------------ *)
(** ** Python regular expressions, as used by the script

    A backtracking matcher in continuation-passing style, with the
    constructs the script's patterns use.  A continuation receives the
    groups captured so far and the remaining input; a matcher tries its
    alternatives in Python's order (greedy repetition tries the longest
    first, lazy the shortest first) and backtracks when the continuation
    fails. *)

Definition nl : ascii := ascii_of_nat 10.
Definition dq : ascii := ascii_of_nat 34.
Definition sq : ascii := ascii_of_nat 39.

(** [\s] on ASCII text: [\t \n \v \f \r], the separators [\x1c]-[\x1f] and
    the space (Python's [str.isspace]). *)
Definition is_space (c : ascii) : bool :=
  let n := nat_of_ascii c in
  ((9 <=? n)%nat && (n <=? 13)%nat) || ((28 <=? n)%nat && (n <=? 32)%nat).

Definition is_nl (c : ascii) : bool := Ascii.eqb c nl.
Definition not_nl (c : ascii) : bool := negb (is_nl c).
Definition any_char (c : ascii) : bool := true.
Definition not_space (c : ascii) : bool := negb (is_space c).
(** The class of the two quote characters, double and single. *)
Definition is_quote (c : ascii) : bool := Ascii.eqb c dq || Ascii.eqb c sq.

Definition cont := list text -> text -> option (list text * text).
Definition matcher := cont -> cont.

(** A literal. *)
Definition m_lit (p : text) : matcher :=
  fun k gs t => if prefixb p t then k gs (skipn (length p) t) else None.

(** One character of a class. *)
Definition m_chr (f : ascii -> bool) : matcher :=
  fun k gs t => match t with
                | c :: t' => if f c then k gs t' else None
                | [] => None
                end.

(** [X*] (greedy) for a character class [X]. *)
Fixpoint star_go (f : ascii -> bool) (k : cont) (gs : list text) (t : text)
  : option (list text * text) :=
  match t with
  | c :: t' =>
      if f c then match star_go f k gs t' with
                  | Some r => Some r
                  | None => k gs t
                  end
      else k gs t
  | [] => k gs t
  end.
Definition m_star (f : ascii -> bool) : matcher := star_go f.

(** [X*?] (lazy) for a character class [X]. *)
Fixpoint lazy_go (f : ascii -> bool) (k : cont) (gs : list text) (t : text)
  : option (list text * text) :=
  match k gs t with
  | Some r => Some r
  | None => match t with
            | c :: t' => if f c then lazy_go f k gs t' else None
            | [] => None
            end
  end.
Definition m_lazy (f : ascii -> bool) : matcher := lazy_go f.

Definition m_seq (m1 m2 : matcher) : matcher := fun k => m1 (m2 k).

(** [X+] (greedy) *)
Definition m_plus (f : ascii -> bool) : matcher := m_seq (m_chr f) (m_star f).

(** [x?] (greedy) for one character [x]. *)
Definition m_opt (c : ascii) : matcher :=
  fun k gs t => match m_chr (Ascii.eqb c) k gs t with
                | Some r => Some r
                | None => k gs t
                end.

(** [A|B] *)
Definition m_alt (m1 m2 : matcher) : matcher :=
  fun k gs t => match m1 k gs t with Some r => Some r | None => m2 k gs t end.

(** [(?=A)] *)
Definition m_look (m : matcher) : matcher :=
  fun k gs t => match m (fun gs' t' => Some (gs', t')) gs t with
                | Some _ => k gs t
                | None => None
                end.

(** [\Z] *)
Definition m_eos : matcher :=
  fun k gs t => match t with [] => k gs t | _ :: _ => None end.

(** [(A)], a capturing group. *)
Definition m_group (m : matcher) : matcher :=
  fun k gs t => m (fun gs' t' => k (gs' ++ [firstn (length t - length t') t]) t') gs t.

(** Match at the start of [s]: the captured groups and the rest. *)
Definition run (m : matcher) (s : text) : option (list text * text) :=
  m (fun gs t => Some (gs, t)) [] s.

(** [re.sub(pattern, repl, s)]: scan left to right, replace each match
    (group 0 first, then the captured groups, passed to [repl]) and resume
    after it; an empty match (which none of the script's patterns can
    produce) is replaced and the next character copied. *)
Fixpoint sub_fuel (fuel : nat) (m : matcher) (repl : list text -> text) (s : text) : text :=
  match fuel with
  | O => s
  | S f =>
      let skip := match s with
                  | [] => []
                  | c :: s' => c :: sub_fuel f m repl s'
                  end in
      match run m s with
      | Some (gs, rest) =>
          repl (firstn (length s - length rest) s :: gs) ++
          (if length rest <? length s then sub_fuel f m repl rest else skip)
      | None => skip
      end
  end.

Definition re_sub (m : matcher) (repl : list text -> text) (s : text) : text :=
  sub_fuel (S (length s)) m repl s.

(** The three patterns of lines 258-265. *)

(** [videoId:\s*Q.*?Q], with [Q] the class of the two quote characters. *)
Definition pat_videoId : matcher :=
  m_seq (m_lit (T "videoId:"))
   (m_seq (m_star is_space)
    (m_seq (m_chr is_quote)
     (m_seq (m_lazy not_nl) (m_chr is_quote)))).

(** [\[githublink\]:\s*https?://[^\s]+] *)
Definition pat_githublink : matcher :=
  m_seq (m_lit (T "[githublink]:"))
   (m_seq (m_star is_space)
    (m_seq (m_lit (T "http"))
     (m_seq (m_opt "s"%char)
      (m_seq (m_lit (T "://")) (m_plus not_space))))).

(** [(## Overview\s*\n).*?(?=\n## |\Z)] with [re.DOTALL] *)
Definition pat_overview : matcher :=
  m_seq (m_group (m_seq (m_lit (T "## Overview")) (m_seq (m_star is_space) (m_chr is_nl))))
   (m_seq (m_lazy any_char)
    (m_look (m_alt (m_lit (nl :: T "## ")) m_eos))).

(** The replacement strings.  A Python replacement template is parsed for
    backslash escapes; the values substituted here are taken to contain no
    backslash, so that each template below is its literal text (with [\1]
    the first group and [\n] a newline in the Overview template). *)
Definition repl_videoId (video_id : text) : list text -> text :=
  fun _ => T "videoId: " ++ [dq] ++ video_id ++ [dq].

Definition repl_githublink (github_url : text) : list text -> text :=
  fun _ => T "[githublink]: " ++ github_url.

Definition repl_overview (short_summary : text) : list text -> text :=
  fun gs => nth 1 gs [] ++ [nl] ++ short_summary ++ [nl].

(** Lines 258-265: the three substitutions of the new page. *)
Definition derive_page (video_id github_url short_summary : text) (content : text) : text :=
  let content := re_sub pat_videoId (repl_videoId video_id) content in
  let content := re_sub pat_githublink (repl_githublink github_url) content in
  re_sub pat_overview (repl_overview short_summary) content.

(* ------------------------------------------------------------------ *)
(** ** Files and the state-and-error monad *)

(** A file holds text, or a document in the form the script's loaders
    ([json.load], [yaml.full_load]) produce and its dumpers consume. *)
Inductive content : Type :=
| CText (t : text)
| CMenu (l : list node)
| CYaml (y : yval).

(** The file system, and the paths written so far, in order. *)
Record state : Type := mkState {
  files : string -> option content;
  written : list string
}.

Definition M (A : Type) : Type := state -> result A * state.

Definition mret {A} (a : A) : M A := fun s => (Ok a, s).

Definition mbind {A B} (m : M A) (k : A -> M B) : M B :=
  fun s => match m s with
           | (Ok a, s') => k a s'
           | (Err e, s') => (Err e, s')
           end.

Definition lift {A} (r : result A) : M A := fun s => (r, s).

Notation "'let*' x ':=' m 'in' k" := (mbind m (fun x => k))
  (at level 200, x name, m at level 100, k at level 200).
Notation "m1 ;;; m2" := (mbind m1 (fun _ => m2)) (at level 100, right associativity).

(** Whether [p] names a file in [s]. *)
Definition exists_in (s : state) (p : string) : bool :=
  match files s p with Some _ => true | None => false end.

(** [os.path.exists(p)] *)
Definition path_exists (p : string) : M bool :=
  fun s => (Ok (exists_in s p), s).

(** [open(p, 'r').read()]; the script reads only its text files this way. *)
Definition read_text (p : string) : M text :=
  fun s => match files s p with
           | Some (CText t) => (Ok t, s)
           | Some _ => (Err ValueError, s)
           | None => (Err FileNotFoundError, s)
           end.

(** [json.load(open(p))] *)
Definition load_json (p : string) : M (list node) :=
  fun s => match files s p with
           | Some (CMenu l) => (Ok l, s)
           | Some _ => (Err JSONDecodeError, s)
           | None => (Err FileNotFoundError, s)
           end.

(** [yaml.full_load(open(p))] *)
Definition load_yaml (p : string) : M yval :=
  fun s => match files s p with
           | Some (CYaml y) => (Ok y, s)
           | Some _ => (Err ValueError, s)
           | None => (Err FileNotFoundError, s)
           end.

(** [open(p, 'w').write(...)], [json.dump], [yaml.dump] *)
Definition write_file (p : string) (c : content) : M unit :=
  fun s => (Ok tt, mkState (fun q => if String.eqb q p then Some c else files s q)
                           (written s ++ [p])).

(* ------------------------------------------------------------------ *)
(** ** [suggest_placement] (lines 49-77) *)

Definition key_id (i : option string) : result string :=
  match i with Some x => Ok x | None => Err KeyError end.

(** [find_tutorials(node, path)]: the leaves (nodes without a ["children"]
    key but with an ["id"]) with their ancestor paths, in preorder;
    [node['id']] raises [KeyError] for a parent without an id, when it has a
    child to visit. *)
Definition find_loop (find : node -> list string -> result (list (string * list string)))
    (i : option string) (path : list string)
  : list node -> result (list (string * list string)) :=
  fix go (ch : list node) :=
  match ch with
  | [] => Ok []
  | child :: rest =>
      x <- key_id i ;;
      a <- find child (path ++ [x]) ;;
      b <- go rest ;;
      Ok (a ++ b)
  end.

Fixpoint find_tutorials (n : node) (path : list string)
  : result (list (string * list string)) :=
  match n with
  | Node i (Some ch) => find_loop find_tutorials i path ch     (* 'children' in node *)
  | Node i None =>
      match i with
      | Some x => Ok [(x, path)]                                (* 'id' in node *)
      | None => Ok []
      end
  end.

Fixpoint all_tutorials (menu_data : list node) : result (list (string * list string)) :=
  match menu_data with
  | [] => Ok []
  | item :: rest =>
      a <- find_tutorials item [] ;;
      b <- all_tutorials rest ;;
      Ok (a ++ b)
  end.

(** Python's [l[i]], negative indices counting from the end. *)
Definition py_index {A} (l : list A) (i : Z) : result A :=
  let n := Z.of_nat (length l) in
  if (0 <=? i)%Z && (i <? n)%Z then
    match nth_error l (Z.to_nat i) with Some a => Ok a | None => Err IndexError end
  else if (- n <=? i)%Z && (i <? 0)%Z then
    match nth_error l (Z.to_nat (n + i)) with Some a => Ok a | None => Err IndexError end
  else Err IndexError.

Definition json_path : string := "cld_docs/app/menus/submenus/programmable-media-menu.json".
Definition yaml_path : string := "cld_docs/config/locales/en.yml".
Definition source_md : string := "cld_docs/app/views/documentation/upload_assets_in_react_tutorial.html.md".
Definition docs_dir : string := "cld_docs".

(** [suggest_placement(...)], the operator having typed the integer
    [index] at the prompt. *)
Definition suggest_placement (menu_json_path : string) (index : Z)
  : M (string * list string) :=
  let* menu_data := load_json menu_json_path in
  let* tutorial_sections := lift (all_tutorials menu_data) in
  let selected_index := (index - 1)%Z in
  lift (py_index tutorial_sections selected_index).

(* ------------------------------------------------------------------ *)
(** ** [add_partial_doc_to_parent_pages] (lines 111-136) *)

(** [s.rindex(sub)]: the last position where [sub] occurs. *)
Definition rindex (sub s : text) : result nat :=
  match filter (fun k => prefixb sub (skipn k s)) (seq 0 (S (length s))) with
  | [] => Err ValueError
  | ks => Ok (last ks 0)
  end.

(** [s.index(c, start)]: the first position at or after [start] holding
    [c]. *)
Definition index_from (c : ascii) (s : text) (start : nat) : result nat :=
  match filter (fun k => match nth_error s k with Some d => Ascii.eqb d c | None => false end)
               (seq start (length s - start)) with
  | [] => Err ValueError
  | k :: _ => Ok k
  end.

(** [l[-2:]] *)
Definition last_two {A} (l : list A) : list A := skipn (length l - 2) l.

Definition parent_page (dir section : string) : string :=
  (dir ++ "/app/views/documentation/" ++ section ++ ".html.md")%string.

Definition partialdoc : text := T "{partialdoc}".

(** The body of the loop for one parent page. *)
Definition patch_parent_page (partial_card_file_name : string) (page : string) : M unit :=
  let* ex := path_exists page in
  if ex then
    let* content := read_text page in
    let* last_partial := lift (rindex partialdoc content) in
    let* nl_pos := lift (index_from nl content last_partial) in
    let insert_pos := S nl_pos in
    let new_partial := partialdoc ++ T partial_card_file_name ++ partialdoc ++ [nl] in
    write_file page (CText (firstn insert_pos content ++ new_partial ++ skipn insert_pos content))
  else mret tt.

Fixpoint patch_pages (partial_card_file_name : string) (pages : list string) : M unit :=
  match pages with
  | [] => mret tt
  | page :: rest =>
      patch_parent_page partial_card_file_name page ;;;
      patch_pages partial_card_file_name rest
  end.

Definition add_partial_doc_to_parent_pages (dir partial_card_file_name : string)
    (parent_path : list string) : M unit :=
  let parent_sections := last_two parent_path in
  let parent_pages := map (parent_page dir) parent_sections in
  patch_pages partial_card_file_name parent_pages.

(* ------------------------------------------------------------------ *)
(** ** [create_partial_card] (lines 138-161) *)

(** [VIDEO_DETAILS] (lines 10-22). *)
Record video_details : Type := mkVideoDetails {
  short_summary : string;
  file_name : string;
  title : string;
  meta_title : string;
  description : string;
  menu_title : string;
  partial_card_file_name : string;
  partial_card_title : string;
  partial_card_description : string;
  public_id : string;
  github_url : string
}.

(** [s.replace(old, new)] for a non-empty [old]: every occurrence, left to
    right, without overlap, which is [re.sub] on the literal. *)
Definition str_replace (old new : text) (s : text) : text :=
  re_sub (m_lit old) (fun _ => new) s.

(** [vidId =\s*Q.*?Q], with [Q] the class of the two quote characters. *)
Definition pat_vidId : matcher :=
  m_seq (m_lit (T "vidId ="))
   (m_seq (m_star is_space)
    (m_seq (m_chr is_quote)
     (m_seq (m_lazy not_nl) (m_chr is_quote)))).

Definition h6_open : text := T "<h6 class=" ++ [dq] ++ T "tut_header" ++ [dq] ++ T ">".

(** [<h6 class=Dtut_headerD>.*?</h6>], [D] the double quote. *)
Definition pat_h6 : matcher :=
  m_seq (m_lit h6_open) (m_seq (m_lazy not_nl) (m_lit (T "</h6>"))).

(** [<small>.*?</small>] *)
Definition pat_small : matcher :=
  m_seq (m_lit (T "<small>")) (m_seq (m_lazy not_nl) (m_lit (T "</small>"))).

Definition partials_dir (dir : string) : string :=
  dir ++ "/app/views/documentation/partials/".

Definition partial_card_text (vd : video_details) (content : text) : text :=
  let content := str_replace (T "upload_assets_in_react_tutorial") (T (file_name vd)) content in
  let content := re_sub pat_vidId
                   (fun _ => T "vidId = " ++ [dq] ++ T (public_id vd) ++ [dq]) content in
  let content := re_sub pat_h6
                   (fun _ => h6_open ++ T (partial_card_title vd) ++ T "</h6>") content in
  re_sub pat_small
    (fun _ => T "<small>" ++ T (partial_card_description vd) ++ T "</small>") content.

Definition create_partial_card (vd : video_details) (dir : string) : M unit :=
  let source_partial := (partials_dir dir ++ "_partial_card_upload_assets_in_react.html.md")%string in
  let dest_partial := (partials_dir dir ++ "_" ++ partial_card_file_name vd ++ ".html.md")%string in
  let* content := read_text source_partial in
  write_file dest_partial (CText (partial_card_text vd content)).

(* ------------------------------------------------------------------ *)
(** ** [create_new_documentation_page] from line 192 on

    The JIRA request and the git commands before line 192 touch none of
    the files below; the video id they produce is a parameter.  Paths are
    relative to the working directory. *)

(** [new_entry] (line 200) *)
Definition menu_entry (vd : video_details) : node := Node (Some (file_name vd)) None.

(** [new_yaml_entry] (lines 233-240) *)
Definition new_yaml_entry (vd : video_details) : list (string * yval) :=
  [(file_name vd, YMap [("title", YStr (title vd));
                        ("meta_title", YStr (meta_title vd));
                        ("description", YStr (description vd));
                        ("menu_title", YStr (menu_title vd))])].

Definition dest_md (vd : video_details) : string :=
  ("cld_docs/app/views/documentation/" ++ file_name vd ++ ".html.md")%string.

(** Lines 196-221: the menu is re-read, [add_to_menu] mutates it (its
    return value is discarded) and it is dumped back. *)
Definition update_json_menu (vd : video_details) (selected_tutorial_id : string) : M unit :=
  let* menu_data := load_json json_path in
  let menu_data := snd (add_to_menu selected_tutorial_id (menu_entry vd) menu_data) in
  write_file json_path (CMenu menu_data).

(** Lines 223-248 *)
Definition update_yaml_file (vd : video_details) (selected_tutorial_id : string) : M unit :=
  let* yaml_data := load_yaml yaml_path in
  let* yaml_data := lift (update_yaml_with_new_entry yaml_data selected_tutorial_id
                                                     (new_yaml_entry vd)) in
  write_file yaml_path (CYaml yaml_data).

(** Lines 250-268 *)
Definition create_page (vd : video_details) (video_id : text) : M unit :=
  let* content := read_text source_md in
  let content := derive_page video_id (T (github_url vd)) (T (short_summary vd)) content in
  write_file (dest_md vd) (CText content).

(** Lines 250-276: everything after the YAML dump. *)
Definition write_pages (vd : video_details) (video_id : text) (parent_path : list string)
  : M unit :=
  create_page vd video_id ;;;
  add_partial_doc_to_parent_pages docs_dir (partial_card_file_name vd) parent_path ;;;
  create_partial_card vd docs_dir.

(** Lines 196-276, once the placement is chosen. *)
Definition mutate_and_serialize (vd : video_details) (video_id : text)
    (selected_tutorial_id : string) (parent_path : list string) : M unit :=
  update_json_menu vd selected_tutorial_id ;;;
  update_yaml_file vd selected_tutorial_id ;;;
  write_pages vd video_id parent_path.

(** Lines 192-276, the operator typing [index]. *)
Definition create_new_documentation_page (vd : video_details) (video_id : text) (index : Z)
  : M unit :=
  let* selected := suggest_placement json_path index in
  let (selected_tutorial_id, parent_path) := selected in
  mutate_and_serialize vd video_id selected_tutorial_id parent_path.

(* ------------------------------------------------------------------ *)
(** ** The video id from the JIRA ticket (lines 166-183) *)

(** A decoded JSON value.  An object is the dict [json.loads] builds, its
    entries with distinct keys; numbers are kept as integers. *)
Inductive json : Type :=
| JObj (kvs : list (string * json))
| JArr (l : list json)
| JStr (s : string)
| JNum (z : Z)
| JBool (b : bool)
| JNull.

(** [d.get(k, default)] *)
Definition j_get (d : json) (k : string) (default : json) : result json :=
  match d with
  | JObj kvs => Ok (match od_get k kvs with Some v => v | None => default end)
  | _ => Err AttributeError
  end.

(** [x[0]] *)
Definition j_index0 (x : json) : result json :=
  match x with
  | JArr (a :: _) => Ok a
  | JArr [] => Err IndexError
  | JObj _ => Err KeyError
  | JStr (String c _) => Ok (JStr (String c EmptyString))
  | JStr EmptyString => Err IndexError
  | _ => Err TypeError
  end.

(** Python truthiness, as in [if not video_url]. *)
Definition j_truthy (x : json) : bool :=
  match x with
  | JObj kvs => negb (match kvs with [] => true | _ => false end)
  | JArr l => negb (match l with [] => true | _ => false end)
  | JStr s => negb (String.eqb s "")
  | JNum z => negb (z =? 0)%Z
  | JBool b => b
  | JNull => false
  end.

(** Line 177: [response.json().get('fields', {}).get('description', {})
    .get('content', [{}])[0].get('content', [{}])[0].get('text', '')] *)
Definition video_url_of (body : json) : result json :=
  a <- j_get body "fields" (JObj []) ;;
  b <- j_get a "description" (JObj []) ;;
  c <- j_get b "content" (JArr [JObj []]) ;;
  d <- j_index0 c ;;
  e <- j_get d "content" (JArr [JObj []]) ;;
  f <- j_index0 e ;;
  j_get f "text" (JStr "").

(** [s.split(sep)] for a non-empty [sep]: cut at each occurrence, left to
    right; [cur] is the piece being built.  Each step consumes a character,
    so [S (length s)] steps suffice. *)
Fixpoint split_fuel (fuel : nat) (sep cur s : text) : list text :=
  match fuel with
  | O => [cur ++ s]
  | S f =>
      match s with
      | [] => [cur]
      | c :: s' =>
          if prefixb sep s then cur :: split_fuel f sep [] (skipn (length sep) s)
          else split_fuel f sep (cur ++ [c]) s'
      end
  end.

Definition py_split (sep s : text) : list text := split_fuel (S (length s)) sep [] s.

(** Lines 173-183, given the status code and the decoded body of the
    response: the video id. *)
Definition video_id_of_response (status_code : Z) (body : json) : result text :=
  if negb (status_code =? 200)%Z then Err ValueError else
  video_url <- video_url_of body ;;
  if negb (j_truthy video_url) then Err ValueError else
  match video_url with
  | JStr u => py_index (py_split (T "v=") (T u)) (-1)
  | _ => Err AttributeError                          (* no [split] method *)
  end.

(** A response body holding [url] where line 177 looks for it. *)
Definition jira_body (url : string) : json :=
  JObj [("fields", JObj [("description", JObj [("content", JArr [
    JObj [("content", JArr [JObj [("text", JStr url)]])]])])])].

(* ------------------------------------------------------------------ *)
(** ** A sample repository

    A menu with one section [A] holding the leaves [B] and [C], the locale
    file listing [B] and [C], the page template, one parent page [A] with a
    partial reference, and the partial card template. *)

Definition vd0 : video_details :=
  mkVideoDetails "S" "new_tut" "Ti" "MT" "De" "Me" "card" "CT" "CD" "pid" "https://g/x".

Definition menu0 : list node :=
  [Node (Some "A") (Some [Node (Some "B") None; Node (Some "C") None])].

Definition yaml0 : yval :=
  YMap [("en", YMap [("docs", YMap [("B", YOther); ("C", YOther)])])].

Definition page_A : string := parent_page docs_dir "A".

Definition card_source : string :=
  (partials_dir docs_dir ++ "_partial_card_upload_assets_in_react.html.md")%string.

Definition card_dest : string :=
  (partials_dir docs_dir ++ "_card.html.md")%string.

(** The repository, with the text of page [A] given. *)
Definition repo_with (menu : list node) (page_A_text : text) (p : string) : option content :=
  if String.eqb p json_path then Some (CMenu menu)
  else if String.eqb p yaml_path then Some (CYaml yaml0)
  else if String.eqb p source_md then Some (CText (T "videoId: 'x'"))
  else if String.eqb p page_A then Some (CText page_A_text)
  else if String.eqb p card_source then Some (CText (T "<small>x</small>"))
  else None.

Definition s0 : state := mkState (repo_with menu0 (partialdoc ++ T "a" ++ partialdoc ++ [nl])) [].


(* ------------------------------------------------------------------ *)
(** ** Auxiliary notions for the proofs *)

(** Every node with a non-empty ['children'] list has an ['id'], the
    condition under which [find_tutorials] reads no missing key. *)
Definition all_loop (f : node -> bool) : list node -> bool :=
  fix go (l : list node) : bool :=
  match l with
  | [] => true
  | x :: r => f x && go r
  end.

Fixpoint ids_ok (n : node) : bool :=
  match n with
  | Node i (Some ch) =>
      match ch, i with
      | _ :: _, None => false
      | _, _ => all_loop ids_ok ch
      end
  | Node _ None => true
  end.

(** The identifiers of the nodes without a ['children'] key, in preorder. *)
Definition concat_loop (f : node -> list string) : list node -> list string :=
  fix go (l : list node) : list string :=
  match l with
  | [] => []
  | x :: r => f x ++ go r
  end.

Fixpoint leaf_ids (n : node) : list string :=
  match n with
  | Node _ (Some ch) => concat_loop leaf_ids ch
  | Node i None => match i with Some x => [x] | None => [] end
  end.

(** [m] writes only paths satisfying [P], appending them to [written], and
    leaves every other path as it was. *)
Definition only_writes {A} (P : string -> Prop) (m : M A) : Prop :=
  forall s, exists w,
    written (snd (m s)) = written s ++ w /\
    (forall q, In q w -> P q) /\
    (forall q, ~ In q w -> files (snd (m s)) q = files s q).


(** Decidable equality of menu identifiers. *)
Definition opt_str_dec : forall a b : option string, {a = b} + {a <> b}.
Proof. decide equality; apply string_dec. Defined.

(** What a successful search establishes: the anchor is the first node
    with its identifier in preorder, and the new entry follows its subtree. *)
Definition found_spec (anchor : string) (new_entry : node) (l : list node) : Prop :=
  exists a n b l',
    search_and_insert anchor new_entry l = (true, l') /\
    flat_forest l = a ++ flat_node n ++ b /\
    node_id n = Some anchor /\
    ~ In (Some anchor) a /\
    flat_forest l' = a ++ flat_node n ++ flat_node new_entry ++ b.

(** A position in the menu tree, from the top-level list down: at each
    level the siblings to the left, the parent's identifier and the
    siblings to the right. *)
Record frame : Type := Frame {
  f_left : list node;
  f_id : option string;
  f_right : list node
}.

(** The forest with the sibling list [l] put back at the position [ctx]. *)
Fixpoint plug (ctx : list frame) (l : list node) : list node :=
  match ctx with
  | [] => l
  | Frame L i R :: c => L ++ Node i (Some (plug c l)) :: R
  end.

(** The preorder flattening of what precedes, and of what follows, the
    siblings [ls ++ ...] and [... ++ rs] at the position [ctx]. *)
Fixpoint before (ctx : list frame) (ls : list node) : list (option string) :=
  match ctx with
  | [] => flat_forest ls
  | Frame L i _ :: c => flat_forest L ++ i :: before c ls
  end.

Fixpoint after (ctx : list frame) (rs : list node) : list (option string) :=
  match ctx with
  | [] => flat_forest rs
  | Frame _ _ R :: c => after c rs ++ flat_forest R
  end.

(** A matcher consumes at least one character before calling its
    continuation; a suffixing one passes a suffix of its input. *)
Definition consuming (m : matcher) : Prop :=
  forall k gs t r, m k gs t = Some r ->
  exists gs' c u t', t = c :: u ++ t' /\ k gs' t' = Some r.

Definition suffixing (m : matcher) : Prop :=
  forall k gs t r, m k gs t = Some r ->
  exists gs' u t', t = u ++ t' /\ k gs' t' = Some r.

(** The input split into gaps and matched spans, and the output with each
    span replaced by the constant text [r]. *)
Fixpoint original (segs : list (text * text)) (last : text) : text :=
  match segs with
  | [] => last
  | (g, mt) :: r => g ++ mt ++ original r last
  end.

Fixpoint replaced (r : text) (segs : list (text * text)) (last : text) : text :=
  match segs with
  | [] => last
  | (g, _) :: rs => g ++ r ++ replaced r rs last
  end.

(** No match starts inside a gap; each span is exactly one match of the
    pattern (a non-empty one) at that point. *)
Fixpoint segments_ok (m : matcher) (segs : list (text * text)) (last : text) : Prop :=
  match segs with
  | [] => forall k, k <= length last -> run m (skipn k last) = None
  | (g, mt) :: rs =>
      (forall k, k < length g -> run m (skipn k (g ++ mt ++ original rs last)) = None) /\
      mt <> [] /\
      (exists gs, run m (mt ++ original rs last) = Some (gs, original rs last)) /\
      segments_ok m rs last
  end.

(** The paths a run of [create_new_documentation_page] may write: the
    menu, the locale file, the new page, parent pages and the partial card. *)
Definition run_paths (vd : video_details) (q : string) : Prop :=
  q = json_path \/ q = yaml_path \/ q = dest_md vd \/
  (exists section, q = parent_page docs_dir section) \/
  q = (partials_dir docs_dir ++ "_" ++ partial_card_file_name vd ++ ".html.md")%string.

(* ================================================================== *)
(** * Proofs *)

(** ** The menu tree *)


Lemma flat_forest_nil : flat_forest [] = [].
Proof. reflexivity. Qed.

Lemma flat_forest_cons x r : flat_forest (x :: r) = flat_node x ++ flat_forest r.
Proof. reflexivity. Qed.

Lemma flat_forest_app l1 l2 :
  flat_forest (l1 ++ l2) = flat_forest l1 ++ flat_forest l2.
Proof.
  induction l1 as [|x l1 IH]; [reflexivity|].
  simpl app. rewrite !flat_forest_cons, IH. apply app_assoc.
Qed.

Lemma flat_node_head n : exists t, flat_node n = node_id n :: t.
Proof. destruct n as [i [ch|]]; eexists; reflexivity. Qed.

Lemma flat_node_some i ch : flat_node (Node i (Some ch)) = i :: flat_forest ch.
Proof. reflexivity. Qed.

Lemma id_matches_true a n : id_matches a n = true -> node_id n = Some a.
Proof.
  unfold id_matches. destruct (node_id n) as [i|]; [|discriminate].
  intros H. apply String.eqb_eq in H. now subst.
Qed.

Lemma id_matches_false a n : id_matches a n = false -> node_id n <> Some a.
Proof.
  unfold id_matches. destruct (node_id n) as [i|]; [|discriminate].
  intros H E. injection E as ->. now rewrite String.eqb_refl in H.
Qed.

Lemma search_and_insert_cons a e item rest :
  search_and_insert a e (item :: rest) =
  if id_matches a item then (true, item :: e :: rest)
  else match search_children a e item with
       | Some item' => (true, item' :: rest)
       | None => let '(b, rest') := search_and_insert a e rest in (b, item :: rest')
       end.
Proof. reflexivity. Qed.

Lemma search_children_some a e i ch :
  search_children a e (Node i (Some ch)) =
  match search_and_insert a e ch with
  | (true, ch') => Some (Node i (Some ch'))
  | (false, _) => None
  end.
Proof. reflexivity. Qed.

Section SearchSpec.
Variables (anchor : string) (new_entry : node).


Lemma search_and_insert_spec_aux m : forall l,
  length (flat_forest l) <= m ->
  (~ In (Some anchor) (flat_forest l) ->
     search_and_insert anchor new_entry l = (false, l)) /\
  (In (Some anchor) (flat_forest l) -> found_spec anchor new_entry l).
Proof.
  induction m as [|m IH]; intros [|item rest] Hl.
  - split; [reflexivity | simpl; tauto].
  - rewrite flat_forest_cons, length_app in Hl.
    destruct (flat_node_head item) as [t Ht]. rewrite Ht in Hl. simpl in Hl. lia.
  - split; [reflexivity | simpl; tauto].
  - rewrite flat_forest_cons in *.
    rewrite length_app in Hl.
    assert (Hrest : length (flat_forest rest) <= m).
    { destruct (flat_node_head item) as [t Ht]. rewrite Ht in Hl. simpl in Hl. lia. }
    rewrite search_and_insert_cons.
    destruct (id_matches anchor item) eqn:Hm.
    + apply id_matches_true in Hm.
      assert (Hin : In (Some anchor) (flat_node item)).
      { destruct (flat_node_head item) as [t Ht]. rewrite Ht, Hm. now left. }
      split.
      * intros Hn. exfalso. apply Hn, in_or_app. now left.
      * intros _. exists [], item, (flat_forest rest), (item :: new_entry :: rest).
        rewrite search_and_insert_cons.
        assert (Hm' : id_matches anchor item = true).
        { unfold id_matches. rewrite Hm. apply String.eqb_refl. }
        rewrite Hm'. repeat split; auto.
    + pose proof (id_matches_false _ _ Hm) as Hm'.
      (* the case where nothing is found below [item] *)
      assert (Hnone : search_children anchor new_entry item = None ->
                      ~ In (Some anchor) (flat_node item) ->
                      (~ In (Some anchor) (flat_node item ++ flat_forest rest) ->
                       (let '(b, rest') := search_and_insert anchor new_entry rest in
                        (b, item :: rest')) = (false, item :: rest)) /\
                      (In (Some anchor) (flat_node item ++ flat_forest rest) ->
                       found_spec anchor new_entry (item :: rest))).
      { intros Hsc Hni. destruct (IH rest Hrest) as [IH1 IH2]. split.
        - intros Hn. rewrite IH1; [reflexivity|].
          intros Hr. apply Hn, in_or_app. now right.
        - intros Hi. apply in_app_or in Hi as [Hi|Hi]; [contradiction|].
          destruct (IH2 Hi) as (a & n & b & l' & E & F & I & N & F').
          exists (flat_node item ++ a), n, b, (item :: l').
          rewrite search_and_insert_cons, Hm, Hsc, E. repeat split.
          + rewrite flat_forest_cons, F. now rewrite app_assoc.
          + exact I.
          + intros Hx. apply in_app_or in Hx as [Hx|Hx]; contradiction.
          + rewrite flat_forest_cons, F'. now rewrite app_assoc. }
      destruct item as [i [ch|]].
      * rewrite flat_node_some in *. simpl in Hm'.
        assert (Hch : length (flat_forest ch) <= m).
        { simpl in Hl. lia. }
        destruct (IH ch Hch) as [IHc1 IHc2].
        destruct (in_dec opt_str_dec (Some anchor) (flat_forest ch)) as [Hc|Hc].
        -- destruct (IHc2 Hc) as (a & n & b & ch' & E & F & I & N & F').
           rewrite search_children_some, E.
           split.
           ++ intros Hn. exfalso. apply Hn, in_or_app. left. now right.
           ++ intros _. exists (i :: a), n, (b ++ flat_forest rest), (Node i (Some ch') :: rest).
              rewrite search_and_insert_cons, search_children_some, E.
              rewrite Hm.
              repeat split.
              ** rewrite flat_forest_cons, flat_node_some, F. simpl. now rewrite <- !app_assoc.
              ** exact I.
              ** intros [Hx|Hx]; [contradiction|contradiction].
              ** rewrite flat_forest_cons, flat_node_some, F'. simpl. now rewrite <- !app_assoc.
        -- rewrite <- flat_node_some in *.
           assert (Hsc : search_children anchor new_entry (Node i (Some ch)) = None).
           { rewrite search_children_some, IHc1 by exact Hc. reflexivity. }
           rewrite Hsc. apply Hnone; [exact Hsc|].
           rewrite flat_node_some. intros [Hx|Hx]; contradiction.
      * assert (Hsc : search_children anchor new_entry (Node i None) = None) by reflexivity.
        rewrite Hsc. apply Hnone; [exact Hsc|].
        intros [Hx|[]]. simpl in Hm'. contradiction.
Qed.

End SearchSpec.

Lemma search_and_insert_not_found anchor e l :
  ~ In (Some anchor) (flat_forest l) -> search_and_insert anchor e l = (false, l).
Proof. apply (search_and_insert_spec_aux anchor e (length (flat_forest l)) l). lia. Qed.

Lemma adjacent_app x y l1 l2 :
  adjacent x y (l1 ++ x :: y :: l2) = true.
Proof.
  assert (Hr : forall a, opt_eqb a a = true).
  { intros [a|]; [apply String.eqb_refl | reflexivity]. }
  induction l1 as [|a l1 IH].
  - simpl. now rewrite !Hr.
  - simpl app. destruct l1 as [|b l1]; simpl in *.
    + rewrite IH. apply orb_true_r.
    + rewrite IH. apply orb_true_r.
Qed.

Lemma flat_plug ctx ls xs rs :
  flat_forest (plug ctx (ls ++ xs ++ rs)) = before ctx ls ++ flat_forest xs ++ after ctx rs.
Proof.
  induction ctx as [|[L i R] c IH]; simpl.
  - now rewrite !flat_forest_app.
  - rewrite flat_forest_app, flat_forest_cons, flat_node_some, IH.
    simpl. now rewrite <- !app_assoc.
Qed.

(** A successful search, as a position in the tree: the anchor's node [n]
    sits among its siblings [ls ++ n :: rs] at the position [ctx], no node
    before it in preorder has the anchor's id, and the new entry becomes
    [n]'s next sibling at that same position. *)
Lemma search_and_insert_at anchor e m : forall l,
  length (flat_forest l) <= m -> In (Some anchor) (flat_forest l) ->
  exists ctx ls n rs,
    l = plug ctx (ls ++ n :: rs) /\ node_id n = Some anchor /\
    ~ In (Some anchor) (before ctx ls) /\
    search_and_insert anchor e l = (true, plug ctx (ls ++ n :: e :: rs)).
Proof.
  induction m as [|m IH]; intros [|item rest] Hl Hin; try (simpl in Hin; contradiction).
  - rewrite flat_forest_cons, length_app in Hl.
    destruct (flat_node_head item) as [t Ht]. rewrite Ht in Hl. simpl in Hl. lia.
  - rewrite flat_forest_cons, length_app in Hl.
    assert (Hrl : length (flat_forest rest) <= m).
    { destruct (flat_node_head item) as [t Ht]. rewrite Ht in Hl. simpl in Hl. lia. }
    rewrite search_and_insert_cons.
    destruct (id_matches anchor item) eqn:Hm.
    { exists [], [], item, rest. repeat split.
      - now apply id_matches_true.
      - simpl. tauto. }
    pose proof (id_matches_false _ _ Hm) as Hm'.
    (* nothing is found below [item]: the anchor is further right *)
    assert (Hright : search_children anchor e item = None ->
                     ~ In (Some anchor) (flat_node item) ->
      exists ctx ls n rs,
        item :: rest = plug ctx (ls ++ n :: rs) /\ node_id n = Some anchor /\
        ~ In (Some anchor) (before ctx ls) /\
        match search_children anchor e item with
        | Some item' => (true, item' :: rest)
        | None => let '(b, rest') := search_and_insert anchor e rest in (b, item :: rest')
        end = (true, plug ctx (ls ++ n :: e :: rs))).
    { intros Hsc Hni. rewrite Hsc.
      rewrite flat_forest_cons in Hin. apply in_app_or in Hin as [Hin|Hin]; [contradiction|].
      destruct (IH rest Hrl Hin) as (ctx & ls & n & rs & El & En & Nb & Es).
      rewrite Es. destruct ctx as [|[L j R] c].
      - exists [], (item :: ls), n, rs. cbn [plug before app] in El, Nb |- *. subst rest.
        repeat split; auto. rewrite flat_forest_cons. intros Hx. apply in_app_or in Hx as [Hx|Hx]; contradiction.
      - exists (Frame (item :: L) j R :: c), ls, n, rs.
        cbn [plug before app] in El, Nb |- *. subst rest.
        repeat split; auto. rewrite flat_forest_cons, <- app_assoc.
        intros Hx. apply in_app_or in Hx as [Hx|Hx]; contradiction. }
    destruct item as [i [ch|]].
    + simpl in Hm'. rewrite flat_node_some in Hl. simpl in Hl.
      destruct (in_dec opt_str_dec (Some anchor) (flat_forest ch)) as [Hc|Hc].
      * destruct (IH ch ltac:(lia) Hc) as (ctx & ls & n & rs & El & En & Nb & Es).
        exists (Frame [] i rest :: ctx), ls, n, rs. cbn [plug before app]. rewrite <- El.
        split; [reflexivity|]. split; [exact En|]. split.
        -- rewrite flat_forest_nil. intros [Hx|Hx]; contradiction.
        -- rewrite search_children_some, Es. reflexivity.
      * apply Hright.
        -- rewrite search_children_some, (search_and_insert_not_found _ _ _ Hc). reflexivity.
        -- rewrite flat_node_some. intros [Hx|Hx]; contradiction.
    + apply Hright; [reflexivity|]. simpl in Hm' |- *. intros [Hx|[]]. contradiction.
Qed.

(** Claim C1 (amended).  When the anchor identifier occurs in the menu,
    [add_to_menu] returns [True] and inserts the new node as the next
    sibling of the first node [n] in depth-first preorder whose id is the
    anchor: [n] sits among its siblings [ls ++ n :: rs] at a position [ctx]
    of the menu, no node before it in preorder has the anchor's id, and
    the result is the menu with [ls ++ n :: new_entry :: rs] at that same
    position.  In the preorder flattening the new node's nodes come right
    after the whole subtree of [n] (so right after the anchor itself when
    the anchor has no descendants), every pre-existing node keeps its
    relative order, and the node count grows by the size of the new node. *)
Theorem add_to_menu_insert_after (anchor : string) (new_entry : node)
    (data : list node) (Hin : In (Some anchor) (flat_forest data)) :
  exists ctx ls n rs,
    data = plug ctx (ls ++ n :: rs) /\
    node_id n = Some anchor /\
    ~ In (Some anchor) (before ctx ls) /\
    add_to_menu anchor new_entry data = (true, plug ctx (ls ++ n :: new_entry :: rs)) /\
    flat_forest data = before ctx ls ++ flat_node n ++ after ctx rs /\
    flat_forest (plug ctx (ls ++ n :: new_entry :: rs))
      = before ctx ls ++ flat_node n ++ flat_node new_entry ++ after ctx rs /\
    length (flat_forest (plug ctx (ls ++ n :: new_entry :: rs)))
      = length (flat_forest data) + length (flat_node new_entry) /\
    (flat_node n = [Some anchor] ->
       adjacent (Some anchor) (node_id new_entry)
                (flat_forest (plug ctx (ls ++ n :: new_entry :: rs))) = true).
Proof.
  destruct (search_and_insert_at anchor new_entry (length (flat_forest data)) data
              (le_n _) Hin) as (ctx & ls & n & rs & El & En & Nb & Es).
  assert (F : flat_forest data = before ctx ls ++ flat_node n ++ after ctx rs).
  { rewrite El. pose proof (flat_plug ctx ls [n] rs) as F. cbn [app] in F.
    rewrite F, flat_forest_cons, flat_forest_nil, app_nil_r. reflexivity. }
  assert (F' : flat_forest (plug ctx (ls ++ n :: new_entry :: rs))
               = before ctx ls ++ flat_node n ++ flat_node new_entry ++ after ctx rs).
  { pose proof (flat_plug ctx ls [n; new_entry] rs) as F'. cbn [app] in F'.
    rewrite F', !flat_forest_cons, flat_forest_nil, app_nil_r, <- app_assoc. reflexivity. }
  exists ctx, ls, n, rs. split; [exact El|]. split; [exact En|]. split; [exact Nb|].
  split; [exact Es|]. split; [exact F|]. split; [exact F'|]. split.
  - rewrite F', F, !length_app. lia.
  - intros Hn. rewrite F', Hn.
    destruct (flat_node_head new_entry) as [t Ht]. rewrite Ht. simpl.
    apply adjacent_app.
Qed.

Lemma add_to_menu_insert_after_witness :
  In (Some "B") (flat_forest [Node (Some "A") (Some [Node (Some "B") None]); Node (Some "C") None]) /\
  exists ctx ls n rs,
    [Node (Some "A") (Some [Node (Some "B") None]); Node (Some "C") None] = plug ctx (ls ++ n :: rs) /\
    node_id n = Some "B" /\
    ~ In (Some "B") (before ctx ls) /\
    add_to_menu "B" (Node (Some "new") None) [Node (Some "A") (Some [Node (Some "B") None]); Node (Some "C") None] = (true, plug ctx (ls ++ n :: (Node (Some "new") None) :: rs)) /\
    flat_forest [Node (Some "A") (Some [Node (Some "B") None]); Node (Some "C") None] = before ctx ls ++ flat_node n ++ after ctx rs /\
    flat_forest (plug ctx (ls ++ n :: (Node (Some "new") None) :: rs))
      = before ctx ls ++ flat_node n ++ flat_node (Node (Some "new") None) ++ after ctx rs /\
    length (flat_forest (plug ctx (ls ++ n :: (Node (Some "new") None) :: rs)))
      = length (flat_forest [Node (Some "A") (Some [Node (Some "B") None]); Node (Some "C") None]) + length (flat_node (Node (Some "new") None)) /\
    (flat_node n = [Some "B"] ->
       adjacent (Some "B") (node_id (Node (Some "new") None))
                (flat_forest (plug ctx (ls ++ n :: (Node (Some "new") None) :: rs))) = true).
Proof.
  assert (H : In (Some "B") (flat_forest [Node (Some "A") (Some [Node (Some "B") None]); Node (Some "C") None])) by (simpl; tauto).
  split; [exact H|].
  exact (add_to_menu_insert_after "B" (Node (Some "new") None) _ H).
Defined.

(** Claim C1 (counterexample).  With an anchor that has children, the new
    node does not come immediately after the anchor in the preorder
    flattening: its children come in between. *)
Lemma add_to_menu_not_adjacent_counterexample :
  In (Some "A") (flat_forest [Node (Some "A") (Some [Node (Some "B") None])]) /\
  ~ exists a b,
      flat_forest (snd (add_to_menu "A" (Node (Some "new") None)
                          [Node (Some "A") (Some [Node (Some "B") None])]))
      = a ++ Some "A" :: Some "new" :: b.
Proof.
  split; [simpl; tauto|].
  intros (a & b & E).
  pose proof (adjacent_app (Some "A") (Some "new") a b) as H.
  rewrite <- E in H. vm_compute in H. discriminate.
Qed.

(** ** The YAML catalog *)

Example catalog_x_B_y :
  update_yaml_with_new_entry
    (YMap [("en", YMap [("docs", YMap [("x", YStr "1"); ("B", YStr "2"); ("y", YStr "3")])])])
    "B" [("new", YStr "r")]
  = Ok (YMap [("en", YMap [("docs", YMap [("x", YStr "1"); ("B", YStr "2");
                                          ("new", YStr "r"); ("y", YStr "3")])])]).
Proof. reflexivity. Qed.

Section OrderedDictFacts.
Variable V : Type.
Implicit Types (d : list (string * V)) (k : string) (v : V).

Lemma od_contains_true k d : od_contains k d = true -> In k (map fst d).
Proof.
  induction d as [|[k' v'] d IH]; simpl; [discriminate|].
  intros H. apply orb_true_iff in H as [H|H].
  - apply String.eqb_eq in H. now left.
  - right. now apply IH.
Qed.

Lemma od_get_in k v d : od_get k d = Some v -> In k (map fst d).
Proof.
  induction d as [|[k' v'] d IH]; simpl; [discriminate|].
  destruct (String.eqb k' k) eqn:E.
  - apply String.eqb_eq in E. now left.
  - intros H. right. now apply IH.
Qed.

Lemma od_get_contains k v d : od_get k d = Some v -> od_contains k d = true.
Proof.
  induction d as [|[k' v'] d IH]; simpl; [discriminate|].
  destruct (String.eqb k' k); [reflexivity|]. intros H. rewrite (IH H). apply orb_true_r.
Qed.

Lemma od_setitem_fresh k v d : ~ In k (map fst d) -> od_setitem k v d = d ++ [(k, v)].
Proof.
  induction d as [|[k' v'] d IH]; simpl; [reflexivity|].
  intros Hn. destruct (String.eqb k' k) eqn:E.
  - apply String.eqb_eq in E. exfalso. now apply Hn; left.
  - rewrite IH; [reflexivity|]. intros Hi. now apply Hn; right.
Qed.

Lemma od_setitem_same k v d : od_get k d = Some v -> od_setitem k v d = d.
Proof.
  induction d as [|[k' v'] d IH]; simpl; [discriminate|].
  destruct (String.eqb k' k).
  - now intros [= ->].
  - intros H. now rewrite IH.
Qed.

Lemma od_get_setitem k v d : od_get k (od_setitem k v d) = Some v.
Proof.
  induction d as [|[k' v'] d IH]; simpl.
  - now rewrite String.eqb_refl.
  - destruct (String.eqb k' k) eqn:E; simpl; rewrite E; [reflexivity|exact IH].
Qed.

Lemma od_get_setitem_other k k2 v d :
  k2 <> k -> od_get k2 (od_setitem k v d) = od_get k2 d.
Proof.
  intros Hne. induction d as [|[k' v'] d IH]; simpl.
  - destruct (String.eqb k k2) eqn:E; [|reflexivity].
    apply String.eqb_eq in E. congruence.
  - destruct (String.eqb k' k) eqn:E; simpl.
    + apply String.eqb_eq in E. subst k'.
      destruct (String.eqb k k2) eqn:E2; [apply String.eqb_eq in E2; congruence|reflexivity].
    + destruct (String.eqb k' k2); [reflexivity|exact IH].
Qed.

End OrderedDictFacts.

Section CopyEntries.
Variables (sel : string) (e : list (string * yval)).

Lemma copy_entries_fresh items nd :
  ~ In sel (map fst items) ->
  NoDup (map fst nd ++ map fst items) ->
  copy_entries sel e items nd = Ok (nd ++ items).
Proof.
  revert nd. induction items as [|[k v] items IH]; intros nd Hs Hnd; simpl.
  - now rewrite app_nil_r.
  - destruct (String.eqb k sel) eqn:E.
    { apply String.eqb_eq in E. subst. exfalso. apply Hs. now left. }
    rewrite od_setitem_fresh.
    2:{ intros Hi. simpl in Hnd. apply NoDup_remove_2 in Hnd. apply Hnd, in_or_app. now left. }
    rewrite IH.
    + now rewrite <- app_assoc.
    + intros Hi. apply Hs. now right.
    + rewrite map_app, <- app_assoc. exact Hnd.
Qed.

Lemma copy_entries_found pre v post nd nk nv e' :
  e = (nk, nv) :: e' ->
  ~ In sel (map fst pre) ->
  NoDup (map fst nd ++ map fst (pre ++ (sel, v) :: post)) ->
  ~ In nk (map fst nd ++ map fst (pre ++ (sel, v) :: post)) ->
  copy_entries sel e (pre ++ (sel, v) :: post) nd
  = Ok (nd ++ pre ++ (sel, v) :: (nk, nv) :: post).
Proof.
  intros He. revert nd. induction pre as [|[k w] pre IH]; intros nd Hs Hnd Hnk; simpl.
  - rewrite String.eqb_refl, He. simpl. rewrite String.eqb_refl.
    simpl in Hnd, Hnk.
    rewrite (od_setitem_fresh _ sel v nd).
    2:{ intros Hi. apply NoDup_remove_2 in Hnd. apply Hnd, in_or_app. now left. }
    rewrite od_setitem_fresh.
    2:{ intros Hi. rewrite map_app in Hi. apply in_app_or in Hi as [Hi|[Hi|[]]].
        - apply Hnk, in_or_app. now left.
        - apply Hnk, in_or_app. right. now left. }
    rewrite <- He, copy_entries_fresh.
    + now rewrite <- !app_assoc.
    + intros Hi. apply NoDup_remove_2 in Hnd. apply Hnd, in_or_app. now right.
    + rewrite !map_app, <- !app_assoc. simpl.
      apply NoDup_remove in Hnd as [Hnd Hn'].
      apply (NoDup_Add (Add_app _ _ _)). split.
      * apply (NoDup_Add (Add_app _ _ _)). split; [exact Hnd|].
        intros Hi. apply Hnk. apply in_app_or in Hi as [Hi|Hi];
          apply in_or_app; [now left | right; now right].
      * intros Hi. apply in_app_or in Hi as [Hi|[Hi|Hi]].
        -- apply Hn', in_or_app. now left.
        -- apply Hnk, in_or_app. right. now left.
        -- apply Hn', in_or_app. now right.
  - destruct (String.eqb k sel) eqn:E.
    { apply String.eqb_eq in E. subst. exfalso. apply Hs. now left. }
    rewrite od_setitem_fresh.
    2:{ intros Hi. simpl in Hnd. apply NoDup_remove_2 in Hnd. apply Hnd, in_or_app. now left. }
    rewrite IH.
    + now rewrite <- app_assoc.
    + intros Hi. apply Hs. now right.
    + rewrite map_app, <- app_assoc. exact Hnd.
    + rewrite map_app, <- app_assoc. exact Hnk.
Qed.

End CopyEntries.

Lemma docs_section_inv y kvs :
  docs_section y = Some kvs ->
  exists top enk, y = YMap top /\ od_get "en" top = Some (YMap enk) /\
                  od_get "docs" enk = Some (YMap kvs).
Proof.
  unfold docs_section. destruct y as [top| |]; simpl; try discriminate.
  destruct (od_get "en" top) as [en|] eqn:Een; [|discriminate].
  destruct en as [enk| |]; simpl; try discriminate.
  destruct (od_get "docs" enk) as [[d| |]|] eqn:Ed; try discriminate.
  intros [= ->]. eauto.
Qed.

Lemma update_yaml_docs_present y kvs sel e :
  docs_section y = Some kvs ->
  update_yaml_with_new_entry y sel e =
  (nd <- copy_entries sel e kvs [] ;; set_in_en y "docs" (YMap nd)).
Proof.
  intros H. destruct (docs_section_inv y kvs H) as (top & enk & -> & Een & Ed).
  unfold update_yaml_with_new_entry. simpl.
  rewrite (od_get_contains _ _ _ _ Een). simpl. rewrite Een. simpl.
  rewrite (od_get_contains _ _ _ _ Ed). simpl. rewrite Een. simpl. rewrite Ed.
  reflexivity.
Qed.

Lemma set_in_en_docs y kvs nd :
  docs_section y = Some kvs ->
  exists y', set_in_en y "docs" (YMap nd) = Ok y' /\ docs_section y' = Some nd.
Proof.
  intros H. destruct (docs_section_inv y kvs H) as (top & enk & -> & Een & Ed).
  unfold set_in_en. simpl. rewrite Een. simpl.
  eexists. split; [reflexivity|].
  unfold docs_section. simpl. rewrite od_get_setitem. simpl.
  now rewrite od_get_setitem.
Qed.

Lemma set_in_en_docs_same y kvs :
  docs_section y = Some kvs -> set_in_en y "docs" (YMap kvs) = Ok y.
Proof.
  intros H. destruct (docs_section_inv y kvs H) as (top & enk & -> & Een & Ed).
  unfold set_in_en. simpl. rewrite Een. simpl.
  rewrite (od_setitem_same _ _ _ _ Ed). simpl.
  now rewrite (od_setitem_same _ _ _ _ Een).
Qed.

Lemma copy_entries_app sel e l1 l2 nd :
  copy_entries sel e (l1 ++ l2) nd =
  (nd' <- copy_entries sel e l1 nd ;; copy_entries sel e l2 nd').
Proof.
  revert nd. induction l1 as [|[k v] l1 IH]; intros nd; simpl; [reflexivity|].
  destruct (String.eqb k sel); [|apply IH].
  destruct e as [|[nk nv] e']; [reflexivity|].
  destruct (od_get nk ((nk, nv) :: e')); [apply IH|reflexivity].
Qed.

Lemma copy_entries_at_sel sel nk nv more v rest nd :
  copy_entries sel ((nk, nv) :: more) ((sel, v) :: rest) nd =
  copy_entries sel ((nk, nv) :: more) rest (od_setitem nk nv (od_setitem sel v nd)).
Proof. simpl. now rewrite !String.eqb_refl. Qed.

Lemma copy_entries_other sel e k v rest nd :
  k <> sel -> copy_entries sel e ((k, v) :: rest) nd = copy_entries sel e rest (od_setitem k v nd).
Proof.
  intros Hk. simpl. destruct (String.eqb k sel) eqn:E; [|reflexivity].
  apply String.eqb_eq in E. contradiction.
Qed.

Lemma od_setitem_mid {V} k (v w : V) a b :
  ~ In k (map fst a) -> od_setitem k v (a ++ (k, w) :: b) = a ++ (k, v) :: b.
Proof.
  induction a as [|[k' v'] a IH]; simpl; intros Hn.
  - now rewrite String.eqb_refl.
  - destruct (String.eqb k' k) eqn:E.
    + apply String.eqb_eq in E. exfalso. apply Hn. now left.
    + rewrite IH; [reflexivity|]. intros Hi. apply Hn. now right.
Qed.

Lemma not_in_from_nodup (a b l : list string) x :
  NoDup (a ++ x :: b) -> (forall y, In y l -> In y (a ++ b)) -> ~ In x l.
Proof.
  intros H Hl Hx. apply (NoDup_remove_2 _ _ _ H). now apply Hl.
Qed.

Ltac keys_simpl :=
  do 3 (rewrite ?map_app, ?in_app_iff in *; simpl in * ).

(** [NoDup] of a list with the same keys as [K], from [H : NoDup K]. *)
Ltac nodup_from H :=
  match type of H with
  | NoDup ?K =>
      eapply (NoDup_incl_NoDup (l := K)); [exact H
      | rewrite ?map_app, ?length_app, ?length_map; simpl;
        rewrite ?length_app, ?length_map; simpl; rewrite ?length_app, ?length_map; lia
      | intros y Hy; keys_simpl; tauto]
  end.

(** Claim C2 (amended).  Let the documentation section (an [OrderedDict],
    so with distinct keys) contain the anchor key.  When it does not
    already contain the new key, the rebuilt section is the old one with
    the new pair placed right after the anchor pair; every other pair keeps
    its place and order.  When it does contain the new key, the section
    keeps a single entry for that key and gains no pair: a key found after
    the anchor moves to right after the anchor with its old record, a key
    found before the anchor stays in place and takes the new record, and a
    new key equal to the anchor gives the anchor the new record. *)
Theorem update_yaml_insert_after (yaml_data : yval)
    (pre post : list (string * yval)) (selected_tutorial_id : string) (v : yval)
    (new_entry_key : string) (new_value : yval) (more : list (string * yval))
    (Hsec : docs_section yaml_data = Some (pre ++ (selected_tutorial_id, v) :: post))
    (Huniq : NoDup (map fst (pre ++ (selected_tutorial_id, v) :: post))) :
  (~ In new_entry_key (map fst (pre ++ (selected_tutorial_id, v) :: post)) ->
   exists yaml_data',
     update_yaml_with_new_entry yaml_data selected_tutorial_id
       ((new_entry_key, new_value) :: more) = Ok yaml_data' /\
     docs_section yaml_data' =
       Some (pre ++ (selected_tutorial_id, v) :: (new_entry_key, new_value) :: post)) /\
  (forall mid old post', post = mid ++ (new_entry_key, old) :: post' ->
   exists yaml_data',
     update_yaml_with_new_entry yaml_data selected_tutorial_id
       ((new_entry_key, new_value) :: more) = Ok yaml_data' /\
     docs_section yaml_data' =
       Some (pre ++ (selected_tutorial_id, v) :: (new_entry_key, old) :: mid ++ post')) /\
  (forall pre' old mid, pre = pre' ++ (new_entry_key, old) :: mid ->
   exists yaml_data',
     update_yaml_with_new_entry yaml_data selected_tutorial_id
       ((new_entry_key, new_value) :: more) = Ok yaml_data' /\
     docs_section yaml_data' =
       Some (pre' ++ (new_entry_key, new_value) :: mid ++ (selected_tutorial_id, v) :: post)) /\
  (new_entry_key = selected_tutorial_id ->
   exists yaml_data',
     update_yaml_with_new_entry yaml_data selected_tutorial_id
       ((new_entry_key, new_value) :: more) = Ok yaml_data' /\
     docs_section yaml_data' = Some (pre ++ (selected_tutorial_id, new_value) :: post)).
Proof.
  rewrite (update_yaml_docs_present _ _ _ _ Hsec).
  set (sel := selected_tutorial_id) in *. set (nk := new_entry_key) in *.
  assert (Hsp : ~ In sel (map fst pre)).
  { rewrite map_app in Huniq. apply (not_in_from_nodup _ _ _ _ Huniq).
    intros y Hy. apply in_or_app. now left. }
  assert (Hss : ~ In sel (map fst post)).
  { rewrite map_app in Huniq. apply (not_in_from_nodup _ _ _ _ Huniq).
    intros y Hy. apply in_or_app. now right. }
  assert (Hpre : copy_entries sel ((nk, new_value) :: more) pre [] = Ok pre).
  { apply copy_entries_fresh; [exact Hsp|]. simpl.
    rewrite map_app in Huniq. exact (NoDup_app_remove_r _ _ Huniq). }
  rewrite copy_entries_app, Hpre. cbn [rbind]. rewrite copy_entries_at_sel.
  rewrite (od_setitem_fresh _ sel v pre Hsp).
  split; [|split; [|split]].
  - (* a fresh key *)
    intros Hfr.
    rewrite (od_setitem_fresh _ nk new_value).
    2:{ intros Hy. apply Hfr. keys_simpl. tauto. }
    rewrite copy_entries_fresh; [| exact Hss |].
    2:{ assert (H' : NoDup (nk :: map fst (pre ++ (sel, v) :: post))) by (constructor; assumption).
        nodup_from H'. }
    cbn [rbind]. eapply set_in_en_docs in Hsec as (y' & E & D).
    exists y'. split; [exact E|rewrite D; f_equal; do 3 (rewrite <- ?app_assoc; simpl); reflexivity].
  - (* a key already found after the anchor *)
    intros mid old post' ->.
    assert (HK : NoDup (map fst pre ++ sel :: nk :: map fst mid ++ map fst post')).
    { nodup_from Huniq. }
    assert (Hnk : ~ In nk (map fst pre ++ [sel] ++ map fst mid ++ map fst post')).
    { replace (map fst pre ++ sel :: nk :: map fst mid ++ map fst post')
        with ((map fst pre ++ [sel]) ++ nk :: map fst mid ++ map fst post') in HK
        by (now rewrite <- app_assoc).
      apply (not_in_from_nodup _ _ _ _ HK). intros y Hy. keys_simpl. tauto. }
    rewrite (od_setitem_fresh _ nk new_value).
    2:{ intros Hy. apply Hnk. keys_simpl. tauto. }
    rewrite copy_entries_app, copy_entries_fresh.
    3:{ apply (NoDup_app_remove_r _ (map fst post')).
        nodup_from HK. }
    2:{ intros Hy. apply Hss. keys_simpl. tauto. }
    cbn [rbind]. rewrite copy_entries_other.
    2:{ intros ->. apply Hnk. keys_simpl. tauto. }
    rewrite <- !app_assoc. cbn [app].
    replace (pre ++ (sel, v) :: (nk, new_value) :: mid)
      with ((pre ++ [(sel, v)]) ++ (nk, new_value) :: mid) by (now rewrite <- app_assoc).
    rewrite od_setitem_mid.
    2:{ intros Hy. apply Hnk. keys_simpl. tauto. }
    rewrite copy_entries_fresh.
    3:{ nodup_from HK. }
    2:{ intros Hy. apply Hss. keys_simpl. tauto. }
    cbn [rbind]. eapply set_in_en_docs in Hsec as (y' & E & D).
    exists y'. split; [exact E|rewrite D; f_equal; do 3 (rewrite <- ?app_assoc; simpl); reflexivity].
  - (* a key already found before the anchor *)
    intros pre' old mid ->.
    assert (HK : NoDup (map fst pre' ++ nk :: map fst mid ++ sel :: map fst post)).
    { nodup_from Huniq. }
    rewrite <- app_assoc. cbn [app]. rewrite od_setitem_mid.
    2:{ apply (not_in_from_nodup _ _ _ _ HK). intros y Hy. keys_simpl. tauto. }
    rewrite copy_entries_fresh; [| exact Hss |].
    2:{ nodup_from HK. }
    cbn [rbind]. eapply set_in_en_docs in Hsec as (y' & E & D).
    exists y'. split; [exact E|rewrite D; f_equal; do 3 (rewrite <- ?app_assoc; simpl); reflexivity].
  - (* the new key is the anchor *)
    intros Heq. rewrite Heq. rewrite (od_setitem_mid sel new_value v pre [] Hsp).
    rewrite copy_entries_fresh; [| exact Hss |].
    2:{ nodup_from Huniq. }
    cbn [rbind]. eapply set_in_en_docs in Hsec as (y' & E & D).
    exists y'. split; [exact E|rewrite D; f_equal; do 3 (rewrite <- ?app_assoc; simpl); reflexivity].
Qed.

(** Witness of [update_yaml_insert_after], one input per case: a fresh key
    ([x, B, y] becomes [x, B, new, y]), a key after the anchor ([x, B, y,
    new] becomes [x, B, new, y] with the old record), a key before the
    anchor ([new, x, B, y] keeps its order, [new] takes the new record) and
    the anchor itself as the new key. *)
Lemma update_yaml_insert_after_witness :
  (exists yaml_data',
    update_yaml_with_new_entry
      (YMap [("en", YMap [("docs", YMap [("x", YStr "1"); ("B", YStr "2"); ("y", YStr "3")])])])
      "B" [("new", YStr "r")] = Ok yaml_data' /\
    docs_section yaml_data' =
      Some [("x", YStr "1"); ("B", YStr "2"); ("new", YStr "r"); ("y", YStr "3")]) /\
  (exists yaml_data',
    update_yaml_with_new_entry
      (YMap [("en", YMap [("docs", YMap [("x", YStr "1"); ("B", YStr "2");
                                         ("y", YStr "3"); ("new", YStr "old")])])])
      "B" [("new", YStr "r")] = Ok yaml_data' /\
    docs_section yaml_data' =
      Some [("x", YStr "1"); ("B", YStr "2"); ("new", YStr "old"); ("y", YStr "3")]) /\
  (exists yaml_data',
    update_yaml_with_new_entry
      (YMap [("en", YMap [("docs", YMap [("new", YStr "old"); ("x", YStr "1");
                                         ("B", YStr "2"); ("y", YStr "3")])])])
      "B" [("new", YStr "r")] = Ok yaml_data' /\
    docs_section yaml_data' =
      Some [("new", YStr "r"); ("x", YStr "1"); ("B", YStr "2"); ("y", YStr "3")]) /\
  (exists yaml_data',
    update_yaml_with_new_entry
      (YMap [("en", YMap [("docs", YMap [("x", YStr "1"); ("B", YStr "2"); ("y", YStr "3")])])])
      "B" [("B", YStr "r")] = Ok yaml_data' /\
    docs_section yaml_data' =
      Some [("x", YStr "1"); ("B", YStr "r"); ("y", YStr "3")]).
Proof.
  assert (Hnd1 : NoDup (map fst ([("x", YStr "1")] ++ ("B", YStr "2") :: [("y", YStr "3")]))).
  { simpl. repeat constructor; simpl; intuition discriminate. }
  assert (Hfr : ~ In "new" (map fst ([("x", YStr "1")] ++ ("B", YStr "2") :: [("y", YStr "3")]))).
  { simpl. intuition discriminate. }
  assert (Hnd2 : NoDup (map fst ([("x", YStr "1")] ++ ("B", YStr "2") ::
                                 [("y", YStr "3"); ("new", YStr "old")]))).
  { simpl. repeat constructor; simpl; intuition discriminate. }
  assert (Hnd3 : NoDup (map fst ([("new", YStr "old"); ("x", YStr "1")] ++ ("B", YStr "2") ::
                                 [("y", YStr "3")]))).
  { simpl. repeat constructor; simpl; intuition discriminate. }
  split; [|split; [|split]].
  - exact (proj1 (update_yaml_insert_after
      (YMap [("en", YMap [("docs", YMap [("x", YStr "1"); ("B", YStr "2"); ("y", YStr "3")])])])
      [("x", YStr "1")] [("y", YStr "3")] "B" (YStr "2") "new" (YStr "r") [] eq_refl Hnd1) Hfr).
  - exact (proj1 (proj2 (update_yaml_insert_after
      (YMap [("en", YMap [("docs", YMap [("x", YStr "1"); ("B", YStr "2");
                                         ("y", YStr "3"); ("new", YStr "old")])])])
      [("x", YStr "1")] [("y", YStr "3"); ("new", YStr "old")] "B" (YStr "2") "new" (YStr "r") []
      eq_refl Hnd2)) [("y", YStr "3")] (YStr "old") [] eq_refl).
  - exact (proj1 (proj2 (proj2 (update_yaml_insert_after
      (YMap [("en", YMap [("docs", YMap [("new", YStr "old"); ("x", YStr "1");
                                         ("B", YStr "2"); ("y", YStr "3")])])])
      [("new", YStr "old"); ("x", YStr "1")] [("y", YStr "3")] "B" (YStr "2") "new" (YStr "r") []
      eq_refl Hnd3))) [] (YStr "old") [("x", YStr "1")] eq_refl).
  - exact (proj2 (proj2 (proj2 (update_yaml_insert_after
      (YMap [("en", YMap [("docs", YMap [("x", YStr "1"); ("B", YStr "2"); ("y", YStr "3")])])])
      [("x", YStr "1")] [("y", YStr "3")] "B" (YStr "2") "B" (YStr "r") []
      eq_refl Hnd1))) eq_refl).
Defined.

(** Claim C2 (counterexample).  When the new key is already in the section
    (a second run with the same page), the [OrderedDict] assignment keeps the
    old record: the new pair [("new", r)] does not appear. *)
Lemma update_yaml_existing_key_counterexample :
  update_yaml_with_new_entry
    (YMap [("en", YMap [("docs", YMap [("B", YStr "1"); ("new", YStr "old")])])])
    "B" [("new", YStr "r")]
  = Ok (YMap [("en", YMap [("docs", YMap [("B", YStr "1"); ("new", YStr "old")])])]) /\
  ~ In ("new", YStr "r") [("B", YStr "1"); ("new", YStr "old")].
Proof.
  split; [reflexivity|].
  simpl. intros [H|[H|[]]]; discriminate.
Qed.

(** Claim C6.  With the documentation section present and the anchor key
    absent from it, the update raises nothing and leaves the whole YAML
    document, and so the section, as it was: the new pair is never
    inserted. *)
Theorem update_yaml_absent_anchor (yaml_data : yval) (kvs : list (string * yval))
    (selected_tutorial_id : string) (new_yaml_entry : list (string * yval))
    (Hsec : docs_section yaml_data = Some kvs)
    (Huniq : NoDup (map fst kvs))
    (Habs : ~ In selected_tutorial_id (map fst kvs)) :
  update_yaml_with_new_entry yaml_data selected_tutorial_id new_yaml_entry = Ok yaml_data.
Proof.
  rewrite (update_yaml_docs_present _ _ _ _ Hsec).
  rewrite copy_entries_fresh by assumption. simpl.
  now apply set_in_en_docs_same.
Qed.

Lemma update_yaml_absent_anchor_witness :
  docs_section (YMap [("en", YMap [("docs", YMap [("x", YStr "1"); ("y", YStr "3")])])])
    = Some [("x", YStr "1"); ("y", YStr "3")] /\
  NoDup (map fst [("x", YStr "1"); ("y", YStr "3")]) /\
  ~ In "B" (map fst [("x", YStr "1"); ("y", YStr "3")]) /\
  update_yaml_with_new_entry
    (YMap [("en", YMap [("docs", YMap [("x", YStr "1"); ("y", YStr "3")])])])
    "B" [("new", YStr "r")]
  = Ok (YMap [("en", YMap [("docs", YMap [("x", YStr "1"); ("y", YStr "3")])])]).
Proof.
  assert (Hnd : NoDup (map fst [("x", YStr "1"); ("y", YStr "3")])).
  { simpl. repeat constructor; simpl; intuition discriminate. }
  assert (Hab : ~ In "B" (map fst [("x", YStr "1"); ("y", YStr "3")])).
  { simpl. intuition discriminate. }
  split; [reflexivity|]. split; [exact Hnd|]. split; [exact Hab|].
  apply (update_yaml_absent_anchor _ [("x", YStr "1"); ("y", YStr "3")]);
    [reflexivity | exact Hnd | exact Hab].
Defined.

(** When ['en'] is a mapping without ['docs'], the section is created empty
    (and the new pair, having no anchor to follow, is not inserted). *)
Lemma update_yaml_creates_docs top enk sel e :
  od_get "en" top = Some (YMap enk) ->
  od_get "docs" enk = None ->
  update_yaml_with_new_entry (YMap top) sel e =
  Ok (YMap (od_setitem "en" (YMap (od_setitem "docs" (YMap []) enk)) top)).
Proof.
  intros Een Ed.
  unfold update_yaml_with_new_entry. simpl.
  rewrite (od_get_contains _ _ _ _ Een). simpl. rewrite Een. simpl.
  assert (Hc : od_contains "docs" enk = false).
  { destruct (od_contains "docs" enk) eqn:C; [|reflexivity].
    exfalso. clear -C Ed. induction enk as [|[k v] r IH]; simpl in *; [discriminate|].
    destruct (String.eqb k "docs") eqn:E; [discriminate|]. simpl in C. auto. }
  rewrite Hc. simpl. unfold set_in_en. simpl. rewrite Een. simpl.
  repeat (rewrite od_get_setitem; simpl).
  rewrite (od_setitem_same _ "docs" _ (od_setitem _ _ _)) by apply od_get_setitem.
  rewrite (od_setitem_same _ "en") by apply od_get_setitem.
  reflexivity.
Qed.

(** Claim C5 (code bug).  When the locale container ['en'] is missing, the
    guard of line 89 is taken but line 90 indexes [yaml_data['en']] anyway:
    the update raises [KeyError] instead of creating the container. *)
Theorem update_yaml_missing_en_raises (top : list (string * yval))
    (selected_tutorial_id : string) (new_yaml_entry : list (string * yval))
    (Hno : od_get "en" top = None) :
  update_yaml_with_new_entry (YMap top) selected_tutorial_id new_yaml_entry = Err KeyError.
Proof.
  unfold update_yaml_with_new_entry. simpl.
  destruct (od_contains "en" top) eqn:C.
  - simpl. rewrite Hno. reflexivity.
  - simpl. unfold set_in_en. simpl. rewrite Hno. reflexivity.
Qed.

Lemma update_yaml_missing_en_raises_witness :
  od_get "en" [] = @None yval /\
  update_yaml_with_new_entry (YMap []) "B" [("new", YStr "r")] = Err KeyError.
Proof.
  split; [reflexivity|].
  apply update_yaml_missing_en_raises. reflexivity.
Defined.

(** ** Regular-expression substitutions *)

Example videoId_two_occurrences :
  re_sub pat_videoId (repl_videoId (T "X"))
    (T "videoId: 'a' and videoId:   'b'")
  = T "videoId: " ++ [dq] ++ T "X" ++ [dq] ++ T " and videoId: " ++ [dq] ++ T "X" ++ [dq].
Proof. vm_compute. reflexivity. Qed.

Example overview_basic :
  re_sub pat_overview (repl_overview (T "S"))
    (T "# T" ++ [nl] ++ T "## Overview" ++ [nl] ++ [nl] ++ T "old" ++ [nl] ++ [nl] ++ T "## Next" ++ [nl])
  = T "# T" ++ [nl] ++ T "## Overview" ++ [nl] ++ [nl] ++ [nl] ++ T "S" ++ [nl] ++ [nl] ++ T "## Next" ++ [nl].
Proof. vm_compute. reflexivity. Qed.

Example overview_empty_body :
  re_sub pat_overview (repl_overview (T "S"))
    (T "## Overview" ++ [nl] ++ [nl] ++ T "## Next" ++ [nl])
  = T "## Overview" ++ [nl] ++ [nl] ++ [nl] ++ T "S" ++ [nl].
Proof. vm_compute. reflexivity. Qed.

Example githublink_basic :
  re_sub pat_githublink (repl_githublink (T "https://new"))
    (T "see [githublink]: http://old/x y")
  = T "see [githublink]: https://new y".
Proof. vm_compute. reflexivity. Qed.

Lemma prefixb_app p t : prefixb p t = true -> t = p ++ skipn (length p) t.
Proof.
  revert t. induction p as [|c p IH]; intros [|d t]; simpl; try discriminate; auto.
  intros H. apply andb_true_iff in H as [H1 H2].
  apply Ascii.eqb_eq in H1. subst d. f_equal. now apply IH.
Qed.

Lemma prefixb_app_self p t : prefixb p (p ++ t) = true.
Proof. induction p as [|c p IH]; simpl; [reflexivity|]. now rewrite Ascii.eqb_refl. Qed.


Lemma consuming_suffixing m : consuming m -> suffixing m.
Proof.
  intros H k gs t r E. destruct (H k gs t r E) as (gs' & c & u & t' & -> & K).
  now exists gs', (c :: u), t'.
Qed.

Lemma lit_consuming c p : consuming (m_lit (c :: p)).
Proof.
  intros k gs t r. unfold m_lit.
  destruct (prefixb (c :: p) t) eqn:P; [|discriminate]. intros K.
  apply prefixb_app in P. exists gs, c, p, (skipn (length (c :: p)) t). split; auto.
Qed.

Lemma lit_suffixing p : suffixing (m_lit p).
Proof.
  intros k gs t r. unfold m_lit.
  destruct (prefixb p t) eqn:P; [|discriminate]. intros K.
  apply prefixb_app in P. eexists gs, p, _. split; [exact P|exact K].
Qed.

Lemma chr_consuming f : consuming (m_chr f).
Proof.
  intros k gs [|c t] r; simpl; [discriminate|].
  destruct (f c); [|discriminate]. intros K. now exists gs, c, [], t.
Qed.

Lemma star_suffixing f : suffixing (m_star f).
Proof.
  intros k gs t. unfold m_star. induction t as [|c t IH]; intros r; simpl.
  - intros K. exists gs, [], []; split; [reflexivity | assumption].
  - destruct (f c).
    + destruct (star_go f k gs t) as [r'|] eqn:E.
      * intros [= <-]. destruct (IH r' eq_refl) as (gs' & u & t' & -> & K).
        exists gs', (c :: u), t'; split; [reflexivity | assumption].
      * intros K. exists gs, [], (c :: t); split; [reflexivity | assumption].
    + intros K. exists gs, [], (c :: t); split; [reflexivity | assumption].
Qed.

Lemma lazy_suffixing f : suffixing (m_lazy f).
Proof.
  intros k gs t. unfold m_lazy. induction t as [|c t IH]; intros r; simpl.
  - destruct (k gs []) eqn:K; [|discriminate]. intros [= <-]. exists gs, [], []; split; [reflexivity | assumption].
  - destruct (k gs (c :: t)) eqn:K.
    + intros [= <-]. exists gs, [], (c :: t); split; [reflexivity | assumption].
    + destruct (f c); [|discriminate]. intros E.
      destruct (IH r E) as (gs' & u & t' & -> & K').
      exists gs', (c :: u), t'; split; [reflexivity | assumption].
Qed.

Lemma seq_consuming m1 m2 : consuming m1 -> suffixing m2 -> consuming (m_seq m1 m2).
Proof.
  intros H1 H2 k gs t r E. unfold m_seq in E.
  destruct (H1 _ _ _ _ E) as (gs1 & c & u1 & t1 & -> & E1).
  destruct (H2 _ _ _ _ E1) as (gs2 & u2 & t2 & -> & E2).
  exists gs2, c, (u1 ++ u2), t2. split; [now rewrite <- app_assoc|exact E2].
Qed.

Lemma seq_suffixing m1 m2 : suffixing m1 -> suffixing m2 -> suffixing (m_seq m1 m2).
Proof.
  intros H1 H2 k gs t r E. unfold m_seq in E.
  destruct (H1 _ _ _ _ E) as (gs1 & u1 & t1 & -> & E1).
  destruct (H2 _ _ _ _ E1) as (gs2 & u2 & t2 & -> & E2).
  exists gs2, (u1 ++ u2), t2. split; [now rewrite <- app_assoc|exact E2].
Qed.

Lemma opt_suffixing c : suffixing (m_opt c).
Proof.
  intros k gs t r. unfold m_opt.
  destruct (m_chr (Ascii.eqb c) k gs t) eqn:E.
  - intros [= <-]. destruct (chr_consuming _ _ _ _ _ E) as (gs' & d & u & t' & -> & K).
    now exists gs', (d :: u), t'.
  - intros K. now exists gs, [], t.
Qed.

Lemma alt_suffixing m1 m2 : suffixing m1 -> suffixing m2 -> suffixing (m_alt m1 m2).
Proof.
  intros H1 H2 k gs t r. unfold m_alt.
  destruct (m1 k gs t) eqn:E; [intros [= <-]; exact (H1 _ _ _ _ E)|].
  apply H2.
Qed.

Lemma look_suffixing m : suffixing (m_look m).
Proof.
  intros k gs t r. unfold m_look.
  destruct (m _ gs t); [|discriminate]. intros K. now exists gs, [], t.
Qed.

Lemma group_consuming m : consuming m -> consuming (m_group m).
Proof.
  intros H k gs t r E. unfold m_group in E.
  destruct (H _ _ _ _ E) as (gs' & c & u & t' & -> & K).
  eexists _, c, u, t'. split; [reflexivity|exact K].
Qed.

Lemma pat_videoId_consuming : consuming pat_videoId.
Proof.
  apply seq_consuming; [apply lit_consuming|].
  apply seq_suffixing; [apply star_suffixing|].
  apply seq_suffixing; [apply consuming_suffixing, chr_consuming|].
  apply seq_suffixing; [apply lazy_suffixing|].
  apply consuming_suffixing, chr_consuming.
Qed.

Lemma pat_githublink_consuming : consuming pat_githublink.
Proof.
  apply seq_consuming; [apply lit_consuming|].
  apply seq_suffixing; [apply star_suffixing|].
  apply seq_suffixing; [apply lit_suffixing|].
  apply seq_suffixing; [apply opt_suffixing|].
  apply seq_suffixing; [apply lit_suffixing|].
  apply consuming_suffixing, seq_consuming; [apply chr_consuming|apply star_suffixing].
Qed.

Lemma pat_overview_consuming : consuming pat_overview.
Proof.
  apply seq_consuming.
  - apply group_consuming, seq_consuming; [apply lit_consuming|].
    apply seq_suffixing; [apply star_suffixing|].
    apply consuming_suffixing, chr_consuming.
  - apply seq_suffixing; [apply lazy_suffixing|apply look_suffixing].
Qed.

Section ReSub.
Variables (m : matcher) (repl : list text -> text).
Hypothesis Hm : consuming m.

Lemma run_consuming s gs rest :
  run m s = Some (gs, rest) -> exists c u, s = c :: u ++ rest.
Proof.
  unfold run. intros E. destruct (Hm _ _ _ _ E) as (gs' & c & u & t' & -> & K).
  injection K as _ <-. eauto.
Qed.

Lemma run_nil : run m [] = None.
Proof.
  destruct (run m []) as [[gs rest]|] eqn:E; [|reflexivity].
  destruct (run_consuming _ _ _ E) as (c & u & H). discriminate.
Qed.

Lemma sub_fuel_stable f1 f2 s :
  length s < f1 -> length s < f2 -> sub_fuel f1 m repl s = sub_fuel f2 m repl s.
Proof.
  revert f2 s. induction f1 as [|f1 IH]; intros [|f2] s H1 H2; try lia.
  simpl. destruct (run m s) as [[gs rest]|] eqn:E.
  - destruct (run_consuming _ _ _ E) as (c & u & ->).
    rewrite length_cons, length_app.
    replace (length rest <? S (length u + length rest)) with true
      by (symmetry; apply Nat.ltb_lt; lia).
    f_equal. apply IH; simpl in *; rewrite length_app in *; lia.
  - destruct s as [|c s]; [reflexivity|]. f_equal. apply IH; simpl in *; lia.
Qed.

Lemma re_sub_nil : re_sub m repl [] = [].
Proof. unfold re_sub. simpl. now rewrite run_nil. Qed.

Lemma re_sub_skip c s :
  run m (c :: s) = None -> re_sub m repl (c :: s) = c :: re_sub m repl s.
Proof.
  intros E. unfold re_sub. simpl. rewrite E. reflexivity.
Qed.

Lemma re_sub_match s gs rest :
  run m s = Some (gs, rest) ->
  re_sub m repl s = repl (firstn (length s - length rest) s :: gs) ++ re_sub m repl rest.
Proof.
  intros E. destruct (run_consuming _ _ _ E) as (c & u & Hs).
  unfold re_sub at 1. simpl. rewrite E. f_equal.
  replace (length rest <? length s) with true
    by (symmetry; apply Nat.ltb_lt; subst s; simpl; rewrite length_app; lia).
  apply sub_fuel_stable; subst s; simpl; rewrite ?length_app; lia.
Qed.

Lemma re_sub_prefix a b :
  (forall k, k < length a -> run m (skipn k (a ++ b)) = None) ->
  re_sub m repl (a ++ b) = a ++ re_sub m repl b.
Proof.
  induction a as [|c a IH]; intros H; [reflexivity|].
  simpl app. rewrite re_sub_skip.
  - f_equal. apply IH. intros k Hk. apply (H (S k)). simpl. lia.
  - apply (H 0). simpl. lia.
Qed.


Lemma re_sub_segments r (Hr : forall gs, repl gs = r) n : forall s,
  length s <= n ->
  exists segs last,
    s = original segs last /\ segments_ok m segs last /\
    re_sub m repl s = replaced r segs last.
Proof.
  induction n as [|n IH]; intros s Hl.
  - destruct s; [|simpl in Hl; lia].
    exists [], []. split; [reflexivity|]. split.
    + intros k _. destruct k; apply run_nil.
    + apply re_sub_nil.
  - destruct s as [|c s].
    + exists [], []. split; [reflexivity|]. split.
      * intros k _. destruct k; apply run_nil.
      * apply re_sub_nil.
    + destruct (run m (c :: s)) as [[gs rest]|] eqn:E.
      * destruct (run_consuming _ _ _ E) as (c' & u & Hs).
        destruct (IH rest) as (segs & last & Ho & Hok & Hsub).
        { injection Hs as _ ->. simpl in Hl. rewrite length_app in Hl. lia. }
        exists (([], c' :: u) :: segs), last. simpl original. rewrite <- Ho.
        split; [exact Hs|]. split.
        -- simpl segments_ok. rewrite <- Ho. split; [intros k Hk; simpl in Hk; lia|].
           split; [discriminate|]. split; [|exact Hok].
           exists gs. rewrite <- Hs. exact E.
        -- rewrite (re_sub_match _ _ _ E), Hr, Hsub. reflexivity.
      * destruct (IH s) as (segs & last & Ho & Hok & Hsub); [simpl in Hl; lia|].
        destruct segs as [|[g mt] segs].
        -- exists [], (c :: last). simpl in Ho. subst s. split; [reflexivity|]. split.
           ++ intros [|k] Hk; [exact E|]. simpl. apply Hok. simpl in Hk. lia.
           ++ rewrite (re_sub_skip _ _ E), Hsub. reflexivity.
        -- exists ((c :: g, mt) :: segs), last. simpl in Ho |- *. subst s.
           split; [reflexivity|]. destruct Hok as (Hg & Hmt & Hrun & Hok).
           split; [split; [|split; [exact Hmt|split; [exact Hrun|exact Hok]]]|].
           ++ intros [|k] Hk; [exact E|]. simpl. apply Hg. simpl in Hk. lia.
           ++ rewrite (re_sub_skip _ _ E), Hsub. reflexivity.
Qed.

End ReSub.

(** Claim C3 (amended).  [re.sub] with the video-id pattern cuts the page
    into gaps and marker spans: no marker starts inside a gap, each span is
    one match of the marker, and the output is the page with every span
    (not only the first) replaced by [videoId: "<id>"], every byte of the
    gaps being kept. *)
Theorem videoId_sub_replaces_every_span (video_id content : text) :
  exists segs last,
    content = original segs last /\
    segments_ok pat_videoId segs last /\
    re_sub pat_videoId (repl_videoId video_id) content
    = replaced (T "videoId: " ++ [dq] ++ video_id ++ [dq]) segs last.
Proof.
  apply (re_sub_segments pat_videoId (repl_videoId video_id) pat_videoId_consuming
           (T "videoId: " ++ [dq] ++ video_id ++ [dq]) (fun _ => eq_refl)
           (length content) content). lia.
Qed.

(** Claim C3 (counterexample).  The second [videoId] marker is substituted
    as well: the result is not the page with only its first marker
    replaced. *)
Lemma videoId_sub_not_first_only_counterexample :
  re_sub pat_videoId (repl_videoId (T "X")) (T "videoId: 'a' and videoId: 'b'")
  <> T "videoId: " ++ [dq] ++ T "X" ++ [dq] ++ T " and videoId: 'b'".
Proof. vm_compute. discriminate. Qed.

Lemma is_nl_space c : is_nl c = true -> is_space c = true.
Proof. unfold is_nl. intros H. apply Ascii.eqb_eq in H. now subst. Qed.

Lemma star_go_prefix f k gs w t r :
  forallb f w = true -> star_go f k gs t = Some r -> star_go f k gs (w ++ t) = Some r.
Proof.
  induction w as [|c w IH]; simpl; [auto|].
  intros H E. apply andb_true_iff in H as [Hc Hw]. rewrite Hc. now rewrite (IH Hw E).
Qed.

Lemma star_go_no_newline K gs X :
  forallb not_nl (take_while is_space X) = true ->
  star_go is_space (m_chr is_nl K) gs X = None.
Proof.
  induction X as [|c X IH]; simpl; [reflexivity|].
  destruct (is_space c) eqn:Hs.
  - simpl. intros H. apply andb_true_iff in H as [Hc HX].
    rewrite (IH HX). unfold not_nl in Hc. destruct (is_nl c); [discriminate|reflexivity].
  - intros _. destruct (is_nl c) eqn:Hn; [|reflexivity].
    rewrite (is_nl_space _ Hn) in Hs. discriminate.
Qed.

Lemma lazy_go_skip f k gs b t :
  forallb f b = true ->
  (forall j, j < length b -> k gs (skipn j (b ++ t)) = None) ->
  lazy_go f k gs (b ++ t) = lazy_go f k gs t.
Proof.
  induction b as [|c b IH]; simpl; [reflexivity|].
  intros Hf H. apply andb_true_iff in Hf as [Hc Hb].
  assert (H0 := H 0 ltac:(lia)). simpl in H0. rewrite H0, Hc. apply IH; [exact Hb|].
  intros j Hj. apply (H (S j)). lia.
Qed.

Lemma lazy_go_here f k gs t r : k gs t = Some r -> lazy_go f k gs t = Some r.
Proof. destruct t; simpl; intros ->; reflexivity. Qed.

Lemma run_overview_no_header t :
  prefixb (T "## Overview") t = false -> run pat_overview t = None.
Proof.
  intros H. unfold run, pat_overview, m_seq, m_group, m_lit. now rewrite H.
Qed.

Lemma skipn_len_app (a b : text) : skipn (length a) (a ++ b) = b.
Proof. induction a; simpl; auto. Qed.

Lemma firstn_len_app (a b : text) :
  firstn (length (a ++ b) - length b) (a ++ b) = a.
Proof.
  rewrite length_app. replace (length a + length b - length b) with (length a) by lia.
  rewrite firstn_app, Nat.sub_diag, firstn_O, app_nil_r. apply firstn_all.
Qed.

Lemma run_overview_at (w body post : text)
    (Hw : forallb is_space w = true)
    (Hlead : forallb not_nl (take_while is_space (body ++ post)) = true)
    (Hbody : forall k, k < length body -> prefixb (nl :: T "## ") (skipn k (body ++ post)) = false)
    (Hpost : post = [] \/ prefixb (nl :: T "## ") post = true) :
  run pat_overview (T "## Overview" ++ w ++ nl :: body ++ post)
  = Some ([T "## Overview" ++ w ++ [nl]], post).
Proof.
  unfold run, pat_overview, m_seq.
  remember (T "## Overview") as hdr eqn:Ehdr.
  unfold m_group at 1, m_lit at 1.
  rewrite prefixb_app_self, skipn_len_app.
  unfold m_star.
  match goal with |- star_go is_space (m_chr is_nl ?K) [] _ = _ =>
    assert (E1 : star_go is_space (m_chr is_nl K) [] (nl :: body ++ post) = K [] (body ++ post));
    [| assert (E2 : K [] (body ++ post) = Some ([hdr ++ w ++ [nl]], post))]
  end.
  - cbn [star_go]. rewrite star_go_no_newline by exact Hlead. reflexivity.
  - cbv beta. simpl app at 1.
    replace (hdr ++ w ++ nl :: body ++ post)
      with ((hdr ++ w ++ [nl]) ++ (body ++ post)) by (now rewrite <- !app_assoc).
    rewrite firstn_len_app. unfold m_lazy.
    rewrite lazy_go_skip; [| apply forallb_forall; reflexivity |].
    + apply lazy_go_here. unfold m_look, m_alt, m_lit, m_eos.
      destruct Hpost as [->|Hp]; [reflexivity|]. rewrite Hp. reflexivity.
    + intros j Hj. unfold m_look, m_alt, m_lit, m_eos.
      rewrite (Hbody j Hj).
      destruct (skipn j (body ++ post)) eqn:E; [|reflexivity].
      exfalso. assert (Hl := f_equal (@length ascii) E).
      rewrite length_skipn, length_app in Hl. simpl in Hl. lia.
  - exact (star_go_prefix _ _ _ w _ _ Hw (eq_trans E1 E2)).
Qed.

(** Lines 260-265: let the first ["## Overview"] of the page be followed by
    whitespace [w] and a newline, where the whitespace right after that
    newline holds no further newline (so the newline is the last one of the
    whitespace run after the header), and let no later ["## Overview"]
    follow.  The substitution keeps the page up to and including that
    newline byte-identical, and replaces the text after it, up to (not
    including) the first newline that starts a ["## "] line, or up to the
    end of the page, by a newline, the summary and a newline; the rest of
    the page is kept as it is. *)
Theorem overview_sub_replaces_body (pre w body post short_summary : text)
    (Hpre : forall k, k < length pre ->
            prefixb (T "## Overview") (skipn k (pre ++ T "## Overview" ++ w ++ nl :: body ++ post)) = false)
    (Hw : forallb is_space w = true)
    (Hlead : forallb not_nl (take_while is_space (body ++ post)) = true)
    (Hbody : forall k, k < length body -> prefixb (nl :: T "## ") (skipn k (body ++ post)) = false)
    (Hpost : post = [] \/ prefixb (nl :: T "## ") post = true)
    (Honce : forall k, k < length post -> prefixb (T "## Overview") (skipn k post) = false) :
  re_sub pat_overview (repl_overview short_summary) (pre ++ T "## Overview" ++ w ++ nl :: body ++ post)
  = pre ++ T "## Overview" ++ w ++ nl :: nl :: short_summary ++ nl :: post.
Proof.
  rewrite (re_sub_prefix pat_overview _)
    by (intros k Hk; apply run_overview_no_header, Hpre, Hk).
  f_equal.
  assert (Hrest : re_sub pat_overview (repl_overview short_summary) post = post).
  { rewrite <- (app_nil_r post) at 1.
    rewrite (re_sub_prefix pat_overview _).
    - rewrite (re_sub_nil _ _ pat_overview_consuming). apply app_nil_r.
    - intros k Hk. apply run_overview_no_header. rewrite app_nil_r. now apply Honce. }
  rewrite (re_sub_match _ _ pat_overview_consuming _ _ _
             (run_overview_at w body post Hw Hlead Hbody Hpost)).
  rewrite Hrest. unfold repl_overview. cbn [nth].
  now rewrite <- !app_assoc.
Qed.

Lemma overview_sub_replaces_body_witness :
  re_sub pat_overview (repl_overview (T "New summary."))
    (T "# Page" ++ T "## Overview" ++ [" "%char] ++ nl :: T "Old." ++ (nl :: T "## Next"))
  = T "# Page" ++ T "## Overview" ++ [" "%char] ++ nl :: nl :: T "New summary." ++ nl :: (nl :: T "## Next").
Proof.
  apply overview_sub_replaces_body.
  - intros k Hk. simpl in Hk.
    do 6 (destruct k as [|k]; [reflexivity|]). lia.
  - reflexivity.
  - reflexivity.
  - intros k Hk. simpl in Hk.
    do 4 (destruct k as [|k]; [reflexivity|]). lia.
  - right. reflexivity.
  - intros k Hk. simpl in Hk.
    do 8 (destruct k as [|k]; [reflexivity|]). lia.
Defined.

(** Claim C4 (code bug).  With an empty Overview body followed by a blank
    line and the next header, the greedy [\s*] of group 1 takes the blank
    line's newline, so the lookahead [(?=\n## |\Z)] finds no newline before
    ["## Next"] and the lazy [.*?] runs to the end of the page: the
    substitution removes the next header line, and no output keeps the
    header line followed by ["## Next"]. *)
Lemma overview_sub_eats_next_header_counterexample :
  re_sub pat_overview (repl_overview (T "S"))
    (T "## Overview" ++ nl :: nl :: T "## Next" ++ [nl])
  = T "## Overview" ++ nl :: nl :: nl :: T "S" ++ [nl] /\
  ~ exists r, re_sub pat_overview (repl_overview (T "S"))
                (T "## Overview" ++ nl :: nl :: T "## Next" ++ [nl])
              = T "## Overview" ++ nl :: r ++ T "## Next" ++ [nl].
Proof.
  assert (H1 : re_sub pat_overview (repl_overview (T "S"))
                 (T "## Overview" ++ nl :: nl :: T "## Next" ++ [nl])
               = T "## Overview" ++ nl :: nl :: nl :: T "S" ++ [nl])
    by (vm_compute; reflexivity).
  split; [exact H1|].
  intros (r & E). rewrite H1 in E.
  assert (Hl := f_equal (@length ascii) E).
  rewrite !length_app in Hl. simpl in Hl. rewrite length_app in Hl. simpl in Hl. lia.
Qed.

(* ------------------------------------------------------------------ *)
(** ** The placement prompt *)

Lemma suggest_placement_eq path menu ts index s :
  files s path = Some (CMenu menu) -> all_tutorials menu = Ok ts ->
  suggest_placement path index s = (py_index ts (index - 1), s).
Proof.
  intros Hf Ht. unfold suggest_placement, mbind, load_json, lift.
  rewrite Hf. simpl. rewrite Ht. reflexivity.
Qed.

Lemma py_index_out_of_range {A} (l : list A) i :
  (i >= Z.of_nat (length l) \/ i < - Z.of_nat (length l))%Z -> py_index l i = Err IndexError.
Proof.
  intros H. unfold py_index.
  destruct ((0 <=? i)%Z && (i <? Z.of_nat (length l))%Z) eqn:E1.
  { apply andb_true_iff in E1 as [E1 E2]. apply Z.ltb_lt in E2. lia. }
  destruct ((- Z.of_nat (length l) <=? i)%Z && (i <? 0)%Z) eqn:E2; [|reflexivity].
  apply andb_true_iff in E2 as [E2 E3]. apply Z.leb_le in E2. apply Z.ltb_lt in E3. lia.
Qed.

Lemma py_index_negative {A} (l : list A) i :
  (- Z.of_nat (length l) <= i < 0)%Z ->
  exists a, In a l /\ py_index l i = Ok a.
Proof.
  intros H. unfold py_index.
  destruct ((0 <=? i)%Z && (i <? Z.of_nat (length l))%Z) eqn:E1.
  { apply andb_true_iff in E1 as [E1 _]. apply Z.leb_le in E1. lia. }
  replace ((- Z.of_nat (length l) <=? i)%Z && (i <? 0)%Z) with true
    by (symmetry; apply andb_true_iff; split; [apply Z.leb_le | apply Z.ltb_lt]; lia).
  destruct (nth_error l (Z.to_nat (Z.of_nat (length l) + i))) as [a|] eqn:E.
  - exists a. split; [eapply nth_error_In; eauto | reflexivity].
  - apply nth_error_None in E. lia.
Qed.

(** Above the list, or below minus its length, the selection raises
    [IndexError] before anything is written. *)
Lemma selection_out_of_range_fails_fast vd video_id menu ts index s :
  files s json_path = Some (CMenu menu) -> all_tutorials menu = Ok ts ->
  (index > Z.of_nat (length ts) \/ index < 1 - Z.of_nat (length ts))%Z ->
  create_new_documentation_page vd video_id index s = (Err IndexError, s).
Proof.
  intros Hf Ht Hi. unfold create_new_documentation_page, mbind at 1.
  rewrite (suggest_placement_eq _ _ _ _ _ Hf Ht), py_index_out_of_range by lia.
  reflexivity.
Qed.

(** From [1 - n] to [0] the selection is not rejected: Python's negative
    indexing resolves it to a leaf. *)
Lemma selection_nonpositive_resolves menu ts index s :
  files s json_path = Some (CMenu menu) -> all_tutorials menu = Ok ts ->
  (1 - Z.of_nat (length ts) <= index <= 0)%Z ->
  exists leaf, In leaf ts /\ suggest_placement json_path index s = (Ok leaf, s).
Proof.
  intros Hf Ht Hi. rewrite (suggest_placement_eq _ _ _ _ _ Hf Ht).
  destruct (py_index_negative ts (index - 1)) as (a & Ha & E); [lia|].
  exists a. rewrite E. auto.
Qed.

(** Claim C7 (divergence).  In the sample repository the displayed list is
    [1. B] and [2. C]; the operator input [0], outside that range, is not
    rejected: it selects [C] (index [-1]) and the run rewrites the menu, the
    locale file, the new page, the parent page [A] and the partial card. *)
Theorem selection_zero_selects_last_leaf :
  suggest_placement json_path 0 s0 = (Ok ("C", ["A"]), s0) /\
  written (snd (create_new_documentation_page vd0 (T "vid") 0 s0))
    = [json_path; yaml_path; dest_md vd0; page_A; card_dest] /\
  files (snd (create_new_documentation_page vd0 (T "vid") 0 s0)) json_path
    = Some (CMenu [Node (Some "A") (Some [Node (Some "B") None; Node (Some "C") None;
                                          menu_entry vd0])]).
Proof.
  split; [reflexivity|]. split; vm_compute; reflexivity.
Qed.

(* ------------------------------------------------------------------ *)
(** ** The menu update *)

Lemma node_ind' (P : node -> Prop)
    (Hleaf : forall i, P (Node i None))
    (Hpar : forall i ch, Forall P ch -> P (Node i (Some ch))) :
  forall n, P n.
Proof.
  exact (fix f n := match n with
         | Node i None => Hleaf i
         | Node i (Some ch) =>
             Hpar i ch ((fix g l := match l return Forall P l with
                                    | [] => Forall_nil P
                                    | c :: r => Forall_cons c (f c) (g r)
                                    end) ch)
         end).
Qed.

Lemma find_loop_nil f i path : find_loop f i path [] = Ok [].
Proof. reflexivity. Qed.

Lemma find_loop_cons f i path c r :
  find_loop f i path (c :: r) =
  (x <- key_id i ;; a <- f c (path ++ [x]) ;; b <- find_loop f i path r ;; Ok (a ++ b)).
Proof. reflexivity. Qed.

Lemma find_tutorials_in_flat : forall n path ts,
  find_tutorials n path = Ok ts ->
  forall x p, In (x, p) ts -> In (Some x) (flat_node n).
Proof.
  induction n as [i|i ch IHch] using node_ind'; intros path ts H x p Hin.
  - destruct i as [y|]; simpl in H; injection H as <-; [|contradiction].
    destruct Hin as [Hin|[]]. injection Hin as -> _. now left.
  - rewrite flat_node_some. right.
    change (find_loop find_tutorials i path ch = Ok ts) in H.
    revert ts H Hin. induction IHch as [|c rest Hc _ IHrest]; intros ts H Hin.
    + rewrite find_loop_nil in H. injection H as <-. contradiction.
    + rewrite find_loop_cons in H. rewrite flat_forest_cons. apply in_or_app.
      destruct (key_id i) as [k|e]; [|discriminate]. simpl in H.
      destruct (find_tutorials c (path ++ [k])) as [a|e] eqn:Ea; [|discriminate].
      simpl in H.
      destruct (find_loop find_tutorials i path rest) as [b|e] eqn:Eb; [|discriminate].
      simpl in H. injection H as <-.
      apply in_app_or in Hin as [Hin|Hin].
      * left. eapply Hc; eauto.
      * right. eapply IHrest; eauto.
Qed.

Lemma all_tutorials_in_flat menu ts x p :
  all_tutorials menu = Ok ts -> In (x, p) ts -> In (Some x) (flat_forest menu).
Proof.
  revert ts. induction menu as [|item rest IH]; intros ts H Hin.
  - injection H as <-. contradiction.
  - simpl in H. rewrite flat_forest_cons. apply in_or_app.
    destruct (find_tutorials item []) as [a|e] eqn:Ea; [|discriminate]. simpl in H.
    destruct (all_tutorials rest) as [b|e] eqn:Eb; [|discriminate]. simpl in H.
    injection H as <-. apply in_app_or in Hin as [Hin|Hin].
    + left. eapply find_tutorials_in_flat; eauto.
    + right. eapply IH; eauto.
Qed.

(** In a run where the menu file is not changed between its two reads, the
    anchor is a leaf of the same menu, so [add_to_menu] finds it. *)
Lemma selected_anchor_found vd menu index s anchor pp :
  files s json_path = Some (CMenu menu) ->
  suggest_placement json_path index s = (Ok (anchor, pp), s) ->
  fst (add_to_menu anchor (menu_entry vd) menu) = true.
Proof.
  intros Hf E. unfold suggest_placement, mbind, load_json, lift in E.
  rewrite Hf in E. simpl in E.
  destruct (all_tutorials menu) as [ts|e] eqn:Ht; [|discriminate].
  simpl in E. injection E as E.
  assert (Hin : In (anchor, pp) ts).
  { unfold py_index in E.
    destruct (_ && _); [destruct nth_error eqn:N; [|discriminate]|].
    - injection E as ->. eapply nth_error_In; eauto.
    - destruct (_ && _); [|discriminate].
      destruct nth_error eqn:N; [|discriminate]. injection E as ->.
      eapply nth_error_In; eauto. }
  pose proof (all_tutorials_in_flat _ _ _ _ Ht Hin) as Hfl.
  destruct (search_and_insert_spec_aux anchor (menu_entry vd)
              (length (flat_forest menu)) menu (le_n _)) as [_ H2].
  destruct (H2 Hfl) as (a & n & b & l' & E' & _).
  unfold add_to_menu. now rewrite E'.
Qed.

(** Claim C8.  When the anchor is absent from the menu read at line 198,
    the [False] returned by [add_to_menu] is discarded: the unchanged menu
    is dumped to the menu file and the run goes on with the YAML update. *)
Theorem menu_not_found_still_written vd video_id anchor parent_path menu s
    (Hf : files s json_path = Some (CMenu menu))
    (Habs : ~ In (Some anchor) (flat_forest menu)) :
  fst (add_to_menu anchor (menu_entry vd) menu) = false /\
  mutate_and_serialize vd video_id anchor parent_path s
  = (update_yaml_file vd anchor ;;; write_pages vd video_id parent_path)
      (mkState (fun q => if String.eqb q json_path then Some (CMenu menu) else files s q)
               (written s ++ [json_path])).
Proof.
  unfold add_to_menu. rewrite search_and_insert_not_found by exact Habs.
  split; [reflexivity|].
  unfold mutate_and_serialize, update_json_menu, mbind at 1 2, load_json.
  rewrite Hf. unfold add_to_menu. rewrite search_and_insert_not_found by exact Habs.
  reflexivity.
Qed.

Lemma menu_not_found_still_written_witness :
  files s0 json_path = Some (CMenu menu0) /\ ~ In (Some "Z") (flat_forest menu0) /\
  fst (add_to_menu "Z" (menu_entry vd0) menu0) = false /\
  mutate_and_serialize vd0 (T "vid") "Z" ["A"] s0
  = (update_yaml_file vd0 "Z" ;;; write_pages vd0 (T "vid") ["A"])
      (mkState (fun q => if String.eqb q json_path then Some (CMenu menu0) else files s0 q)
               (written s0 ++ [json_path])).
Proof.
  assert (Hf : files s0 json_path = Some (CMenu menu0)) by reflexivity.
  assert (Habs : ~ In (Some "Z") (flat_forest menu0)).
  { vm_compute. intros [H|[H|[H|[]]]]; discriminate. }
  split; [exact Hf|]. split; [exact Habs|].
  exact (menu_not_found_still_written vd0 (T "vid") "Z" ["A"] menu0 s0 Hf Habs).
Defined.

(** Claim C8 (counterexample).  With the anchor [Z] absent from the sample
    menu, the run is not aborted: every artifact is written, the menu
    first and unchanged. *)
Lemma menu_not_found_counterexample :
  fst (add_to_menu "Z" (menu_entry vd0) menu0) = false /\
  mutate_and_serialize vd0 (T "vid") "Z" ["A"] s0 =
    (Ok tt, snd (mutate_and_serialize vd0 (T "vid") "Z" ["A"] s0)) /\
  written (snd (mutate_and_serialize vd0 (T "vid") "Z" ["A"] s0))
    = [json_path; yaml_path; dest_md vd0; page_A; card_dest] /\
  files (snd (mutate_and_serialize vd0 (T "vid") "Z" ["A"] s0)) json_path
    = Some (CMenu menu0).
Proof.
  split; [vm_compute; reflexivity|].
  split; [reflexivity|]. split; vm_compute; reflexivity.
Qed.

(* ------------------------------------------------------------------ *)
(** ** Absent markers *)

Lemma infixb_false_skipn p c :
  infixb p c = false -> forall k, prefixb p (skipn k c) = false.
Proof.
  induction c as [|a c IH]; intros H k.
  - rewrite skipn_nil. simpl in H. now apply orb_false_iff in H as [H _].
  - simpl in H. apply orb_false_iff in H as [H1 H2].
    destruct k as [|k]; [exact H1|]. simpl. now apply IH.
Qed.

Lemma re_sub_no_match m repl s :
  consuming m -> (forall k, run m (skipn k s) = None) -> re_sub m repl s = s.
Proof.
  intros Hm H.
  assert (E : re_sub m repl (s ++ []) = s ++ re_sub m repl []).
  { apply re_sub_prefix. intros k _. rewrite app_nil_r. apply H. }
  rewrite (re_sub_nil m repl Hm), !app_nil_r in E. exact E.
Qed.






Lemma patch_pages_cons name page rest :
  patch_pages name (page :: rest)
  = mbind (patch_parent_page name page) (fun _ => patch_pages name rest).
Proof. reflexivity. Qed.




(* ------------------------------------------------------------------ *)
(** ** Missing parent pages *)

(** One page leaves the state alone or writes that page, which exists. *)
Lemma patch_parent_page_cases name page s :
  snd (patch_parent_page name page s) = s \/
  (exists c, exists_in s page = true /\
             snd (patch_parent_page name page s) = snd (write_file page c s)).
Proof.
  unfold patch_parent_page, mbind, path_exists, read_text, lift, mret.
  destruct (exists_in s page) eqn:Ex; cbv beta iota zeta; [|left; reflexivity].
  destruct (files s page) as [[t| |]|]; cbv beta iota zeta; try (left; reflexivity).
  destruct (rindex partialdoc t) as [lp|e]; cbv beta iota zeta; [|left; reflexivity].
  destruct (index_from nl t lp) as [np|e]; cbv beta iota zeta; [|left; reflexivity].
  right. eexists. split; reflexivity.
Qed.

(** One page: the paths written are existing ones, and which paths exist
    does not change. *)
Lemma patch_parent_page_frame name page s :
  exists w, written (snd (patch_parent_page name page s)) = written s ++ w /\
            (forall q, In q w -> exists_in s q = true) /\
            (forall q, exists_in (snd (patch_parent_page name page s)) q = exists_in s q).
Proof.
  destruct (patch_parent_page_cases name page s) as [E|(c & Ex & E)]; rewrite E.
  - exists []. rewrite app_nil_r. split; [reflexivity|]. split; [intros q []|reflexivity].
  - exists [page]. simpl. split; [reflexivity|]. split.
    + intros q [<-|[]]. exact Ex.
    + intros q. unfold exists_in. simpl. destruct (String.eqb q page) eqn:Eq; [|reflexivity].
      apply String.eqb_eq in Eq. subst q. symmetry; exact Ex.
Qed.

Lemma patch_pages_frame name pages : forall s,
  exists w, written (snd (patch_pages name pages s)) = written s ++ w /\
            (forall q, In q w -> exists_in s q = true) /\
            (forall q, exists_in (snd (patch_pages name pages s)) q = exists_in s q).
Proof.
  induction pages as [|page rest IH]; intros s.
  - exists []. rewrite app_nil_r. split; [reflexivity|]. split; [intros q []|reflexivity].
  - change (patch_pages name (page :: rest))
      with (mbind (patch_parent_page name page) (fun _ => patch_pages name rest)).
    unfold mbind.
    destruct (patch_parent_page_frame name page s) as (w1 & W1 & I1 & E1).
    destruct (patch_parent_page name page s) as [[u|e] s1]; simpl in W1, I1, E1;
      cbv beta iota.
    + destruct (IH s1) as (w2 & W2 & I2 & E2).
      exists (w1 ++ w2). split; [rewrite W2, W1; symmetry; apply app_assoc|]. split.
      * intros q Hq. apply in_app_or in Hq as [Hq|Hq]; [auto|]. rewrite <- E1. auto.
      * intros q. rewrite E2. apply E1.
    + exists w1. simpl. auto.
Qed.

Lemma patch_parent_page_missing name page s :
  exists_in s page = false -> patch_parent_page name page s = (Ok tt, s).
Proof.
  intros Ex. unfold patch_parent_page, mbind, path_exists. rewrite Ex. reflexivity.
Qed.

Lemma patch_pages_filter name pages : forall s,
  patch_pages name pages s = patch_pages name (filter (exists_in s) pages) s.
Proof.
  induction pages as [|page rest IH]; intros s; [reflexivity|].
  cbn [filter]. destruct (exists_in s page) eqn:Ex.
  - rewrite !patch_pages_cons. unfold mbind.
    destruct (patch_parent_page_frame name page s) as (w & _ & _ & E1).
    destruct (patch_parent_page name page s) as [[u|e] s1]; cbv beta iota; [|reflexivity].
    simpl in E1. rewrite IH. f_equal. apply filter_ext. intros q. apply E1.
  - rewrite patch_pages_cons. unfold mbind.
    rewrite (patch_parent_page_missing _ _ _ Ex). apply IH.
Qed.

(** Claim C10.  Patching the parent pages is patching only those that
    exist when it starts: a missing page raises nothing and does not stop
    the others.  The paths written are existing ones, and a missing path is
    still missing afterwards. *)
Theorem missing_parent_pages_skipped dir name parent_path s :
  add_partial_doc_to_parent_pages dir name parent_path s
  = patch_pages name (filter (exists_in s) (map (parent_page dir) (last_two parent_path))) s /\
  exists w,
    written (snd (add_partial_doc_to_parent_pages dir name parent_path s)) = written s ++ w /\
    (forall q, In q w -> files s q <> None) /\
    (forall q, files s q = None ->
       files (snd (add_partial_doc_to_parent_pages dir name parent_path s)) q = None).
Proof.
  unfold add_partial_doc_to_parent_pages. split; [apply patch_pages_filter|].
  destruct (patch_pages_frame name (map (parent_page dir) (last_two parent_path)) s)
    as (w & W & I & E).
  exists w. split; [exact W|]. split.
  - intros q Hq. specialize (I q Hq). unfold exists_in in I.
    destruct (files s q); [discriminate|discriminate].
  - intros q Hq. specialize (E q). unfold exists_in in E. rewrite Hq in E.
    destruct (files _ q); [discriminate|reflexivity].
Qed.

Lemma missing_parent_pages_skipped_witness :
  add_partial_doc_to_parent_pages docs_dir "card" ["A"; "B"] s0
  = patch_pages "card" [page_A] s0.
Proof.
  pose proof (proj1 (missing_parent_pages_skipped docs_dir "card" ["A"; "B"] s0)) as E.
  exact E.
Defined.

(* ================================================================== *)
(** * Further properties of the script *)

(* ------------------------------------------------------------------ *)
(** ** The tutorial list of [suggest_placement] *)

Lemma all_loop_cons f x r : all_loop f (x :: r) = f x && all_loop f r.
Proof. reflexivity. Qed.

Lemma concat_loop_cons f x r : concat_loop f (x :: r) = f x ++ concat_loop f r.
Proof. reflexivity. Qed.

Lemma find_tutorials_listing : forall n path,
  (ids_ok n = true ->
     exists ts, find_tutorials n path = Ok ts /\ map fst ts = leaf_ids n) /\
  (ids_ok n = false -> find_tutorials n path = Err KeyError).
Proof.
  induction n as [i|i ch IHch] using node_ind'; intros path.
  - split; [intros _|intros H; discriminate H].
    destruct i as [x|]; [exists [(x, path)] | exists []]; split; reflexivity.
  - assert (Hloop : forall x,
      (all_loop ids_ok ch = true ->
         exists ts, find_loop find_tutorials (Some x) path ch = Ok ts /\
                    map fst ts = concat_loop leaf_ids ch) /\
      (all_loop ids_ok ch = false ->
         find_loop find_tutorials (Some x) path ch = Err KeyError)).
    { intros x. induction IHch as [|c r Hc _ IHr].
      - split; [intros _; exists []; split; reflexivity | intros H; discriminate H].
      - rewrite find_loop_cons, all_loop_cons, concat_loop_cons. cbn [key_id rbind].
        destruct (Hc (path ++ [x])) as [Hc1 Hc2]. destruct IHr as [IHr1 IHr2].
        destruct (ids_ok c) eqn:Ec; simpl andb.
        + destruct (Hc1 eq_refl) as (a & Ea & Ma). rewrite Ea. cbn [rbind].
          split.
          * intros Hr. destruct (IHr1 Hr) as (b & Eb & Mb). rewrite Eb. cbn [rbind].
            exists (a ++ b). split; [reflexivity|]. rewrite map_app, Ma, Mb. reflexivity.
          * intros Hr. rewrite (IHr2 Hr). reflexivity.
        + rewrite (Hc2 eq_refl). split; [discriminate|reflexivity]. }
    destruct ch as [|c r].
    + split; [intros _; exists []; split; reflexivity | intros H; discriminate H].
    + destruct i as [x|].
      * exact (Hloop x).
      * split; [intros H; discriminate H | intros _; reflexivity].
Qed.

(** [find_tutorials] over the whole menu raises [KeyError] exactly when
    some node with a non-empty ['children'] list has no ['id']; otherwise
    it lists, in preorder, the identifiers of the nodes without a
    ['children'] key (a node with neither key is left out). *)
Theorem all_tutorials_listing menu :
  (all_loop ids_ok menu = true ->
     exists ts, all_tutorials menu = Ok ts /\ map fst ts = concat_loop leaf_ids menu) /\
  (all_loop ids_ok menu = false -> all_tutorials menu = Err KeyError).
Proof.
  induction menu as [|item rest IH].
  - split; [intros _; exists []; split; reflexivity | intros H; discriminate H].
  - rewrite all_loop_cons, concat_loop_cons. simpl all_tutorials.
    destruct (find_tutorials_listing item []) as [H1 H2]. destruct IH as [IH1 IH2].
    destruct (ids_ok item) eqn:Ei; simpl andb.
    + destruct (H1 eq_refl) as (a & Ea & Ma). rewrite Ea. cbn [rbind]. split.
      * intros Hr. destruct (IH1 Hr) as (b & Eb & Mb). rewrite Eb. cbn [rbind].
        exists (a ++ b). split; [reflexivity|]. rewrite map_app, Ma, Mb. reflexivity.
      * intros Hr. rewrite (IH2 Hr). reflexivity.
    + rewrite (H2 eq_refl). split; [discriminate|reflexivity].
Qed.

(** Typing [index] between 1 and the number of listed tutorials selects the
    tutorial displayed under that number, and reads nothing else. *)
Theorem suggest_placement_selects_displayed menu ts index s
    (Hf : files s json_path = Some (CMenu menu))
    (Ht : all_tutorials menu = Ok ts)
    (Hi : (1 <= index <= Z.of_nat (length ts))%Z) :
  suggest_placement json_path index s = (Ok (nth (Z.to_nat (index - 1)) ts ("", [])), s).
Proof.
  rewrite (suggest_placement_eq _ _ _ _ _ Hf Ht). unfold py_index.
  replace ((0 <=? index - 1)%Z && (index - 1 <? Z.of_nat (length ts))%Z) with true
    by (symmetry; apply andb_true_iff; split; [apply Z.leb_le | apply Z.ltb_lt]; lia).
  rewrite (nth_error_nth' ts ("", [])) by lia. reflexivity.
Qed.

Lemma suggest_placement_selects_displayed_witness :
  suggest_placement json_path 2 s0 = (Ok ("C", ["A"]), s0).
Proof.
  exact (suggest_placement_selects_displayed menu0 [("B", ["A"]); ("C", ["A"])] 2 s0
           eq_refl eq_refl ltac:(simpl; lia)).
Defined.

Lemma selection_out_of_range_fails_fast_witness :
  create_new_documentation_page vd0 (T "vid") 3 s0 = (Err IndexError, s0).
Proof.
  exact (selection_out_of_range_fails_fast vd0 (T "vid") menu0 [("B", ["A"]); ("C", ["A"])] 3 s0
           eq_refl eq_refl ltac:(simpl; lia)).
Defined.

Lemma selected_anchor_found_witness :
  fst (add_to_menu "B" (menu_entry vd0) menu0) = true.
Proof.
  exact (selected_anchor_found vd0 menu0 1 s0 "B" ["A"] eq_refl eq_refl).
Defined.

(* ------------------------------------------------------------------ *)
(** ** The video id *)

Lemma split_fuel_nonempty f sep cur s : split_fuel f sep cur s <> [].
Proof.
  revert cur s. induction f as [|f IH]; intros cur [|c s]; simpl; try discriminate.
  destruct (prefixb sep (c :: s)); [discriminate|apply IH].
Qed.

Lemma prefix_false_infixb p l :
  (forall k, prefixb p (skipn k l) = false) -> infixb p l = false.
Proof.
  induction l as [|a l IH]; intros H.
  - pose proof (H 0) as H0. simpl in *. now rewrite H0.
  - pose proof (H 0) as H0. simpl in *. rewrite H0. simpl. apply IH.
    intros k. apply (H (S k)).
Qed.

Lemma last_cons_ne {A} (x : A) l d : l <> [] -> last (x :: l) d = last l d.
Proof. destruct l; [contradiction|reflexivity]. Qed.

(** The last piece of [s.split(sep)] is a suffix of [s] in which no
    occurrence of [sep] starts, and what precedes it is empty or ends with
    [sep]. *)
Lemma split_fuel_last f sep cur s :
  sep <> [] -> length s < f ->
  (forall k, k < length cur -> prefixb sep (skipn k cur ++ s) = false) ->
  exists pre, cur ++ s = pre ++ last (split_fuel f sep cur s) [] /\
              (pre = [] \/ exists p', pre = p' ++ sep) /\
              forall k, prefixb sep (skipn k (last (split_fuel f sep cur s) [])) = false.
Proof.
  intros Hsep. revert cur s. induction f as [|f IH]; intros cur s Hl Hc; [lia|].
  destruct s as [|c s].
  - exists []. simpl. rewrite app_nil_r. split; [reflexivity|]. split; [now left|].
    intros k. destruct (Nat.lt_ge_cases k (length cur)) as [Hk|Hk].
    + specialize (Hc k Hk). now rewrite app_nil_r in Hc.
    + rewrite skipn_all2 by exact Hk. destruct sep; [contradiction|reflexivity].
  - change (split_fuel (S f) sep cur (c :: s)) with
      (if prefixb sep (c :: s) then cur :: split_fuel f sep [] (skipn (length sep) (c :: s))
       else split_fuel f sep (cur ++ [c]) s).
    destruct (prefixb sep (c :: s)) eqn:P; cbv iota.
    + pose proof (prefixb_app _ _ P) as Hs.
      destruct (IH [] (skipn (length sep) (c :: s))) as (pre & E & Hp & N).
      { rewrite length_skipn. simpl in Hl |- *. destruct sep; [contradiction|simpl; lia]. }
      { intros k Hk. simpl in Hk. lia. }
      rewrite last_cons_ne by apply split_fuel_nonempty.
      set (L := last (split_fuel f sep [] (skipn (length sep) (c :: s))) []).
      fold L in E, N. simpl app in E.
      exists (cur ++ sep ++ pre). split; [|split; [right|exact N]].
      * rewrite Hs at 1. rewrite E. now rewrite <- !app_assoc.
      * destruct Hp as [->|(p' & ->)].
        -- exists cur. now rewrite app_nil_r.
        -- exists (cur ++ sep ++ p'). now rewrite <- !app_assoc.
    + destruct (IH (cur ++ [c]) s) as (pre & E & Hp & N).
      { simpl in Hl. lia. }
      { intros k Hk. rewrite length_app in Hk. simpl in Hk.
        destruct (Nat.lt_ge_cases k (length cur)) as [Hk'|Hk'].
        - rewrite skipn_app, (proj2 (Nat.sub_0_le k (length cur))) by lia.
          specialize (Hc k Hk'). rewrite <- app_assoc. exact Hc.
        - replace k with (length cur) by lia. rewrite skipn_app, Nat.sub_diag, skipn_all.
          exact P. }
      exists pre. rewrite <- E, <- app_assoc. split; [reflexivity|split; [exact Hp|exact N]].
Qed.

Lemma split_fuel_no_sep f sep cur s :
  (forall k, prefixb sep (skipn k s) = false) -> split_fuel f sep cur s = [cur ++ s].
Proof.
  revert cur s. induction f as [|f IH]; intros cur s H; [reflexivity|].
  destruct s as [|c s]; simpl; [now rewrite app_nil_r|].
  pose proof (H 0) as H0. simpl in H0. rewrite H0.
  rewrite IH by (intros k; apply (H (S k))). now rewrite <- app_assoc.
Qed.

Lemma py_index_last {A} (l : list A) (d : A) :
  l <> [] -> py_index l (-1)%Z = Ok (last l d).
Proof.
  intros Hl. destruct (exists_last Hl) as (l' & a & ->).
  unfold py_index. rewrite length_app. simpl length.
  replace ((0 <=? -1)%Z && (-1 <? Z.of_nat (length l' + 1))%Z) with false by reflexivity.
  replace ((- Z.of_nat (length l' + 1) <=? -1)%Z && (-1 <? 0)%Z) with true
    by (symmetry; apply andb_true_iff; split; [apply Z.leb_le | apply Z.ltb_lt]; lia).
  replace (Z.to_nat (Z.of_nat (length l' + 1) + -1)) with (length l') by lia.
  rewrite nth_error_app2, Nat.sub_diag by lia. simpl. now rewrite last_last.
Qed.

(** When the video id is produced, the response had status 200 and a
    non-empty text URL, and the id is the part of that URL after its last
    [v=]: the URL is [pre ++ id], the id holds no [v=], and when the URL
    holds a [v=] the prefix [pre] ends with [v=].  A URL without [v=] is
    taken whole as the id. *)
Theorem video_id_after_last_marker status body video_id
    (H : video_id_of_response status body = Ok video_id) :
  status = 200%Z /\
  exists u pre,
    video_url_of body = Ok (JStr u) /\ u <> ""%string /\
    T u = pre ++ video_id /\ infixb (T "v=") video_id = false /\
    (infixb (T "v=") (T u) = true -> exists pre', pre = pre' ++ T "v=") /\
    (infixb (T "v=") (T u) = false -> video_id = T u).
Proof.
  unfold video_id_of_response in H.
  destruct (status =? 200)%Z eqn:Es; [|discriminate]. apply Z.eqb_eq in Es.
  split; [exact Es|].
  destruct (video_url_of body) as [v|e]; [|discriminate]. cbn [rbind] in H.
  destruct (j_truthy v) eqn:Tv; [|discriminate]. simpl negb in H. cbv iota in H.
  destruct v as [| |u| | |]; try discriminate.
  rewrite (py_index_last (py_split (T "v=") (T u)) [] (split_fuel_nonempty _ _ _ _)) in H.
  injection H as <-.
  destruct (split_fuel_last (S (length (T u))) (T "v=") [] (T u)) as (pre & E & Hp & N).
  { discriminate. } { lia. } { intros k Hk. simpl in Hk. lia. }
  exists u, pre. split; [reflexivity|]. split.
  { intros ->. discriminate. }
  split; [exact E|]. split; [now apply prefix_false_infixb|]. split.
  { intros Hin. destruct Hp as [Hp|Hp]; [|exact Hp]. exfalso.
    rewrite Hp in E. cbn [app] in E. rewrite E, (prefix_false_infixb _ _ N) in Hin.
    discriminate. }
  intros Hn. unfold py_split. rewrite split_fuel_no_sep; [reflexivity|].
  now apply infixb_false_skipn.
Qed.

Lemma video_id_after_last_marker_witness :
  video_id_of_response 200 (jira_body "https://www.youtube.com/watch?v=abc") = Ok (T "abc") /\
  200%Z = 200%Z /\
  exists u pre,
    video_url_of (jira_body "https://www.youtube.com/watch?v=abc") = Ok (JStr u) /\
    u <> ""%string /\ T u = pre ++ T "abc" /\ infixb (T "v=") (T "abc") = false /\
    (infixb (T "v=") (T u) = true -> exists pre', pre = pre' ++ T "v=") /\
    (infixb (T "v=") (T u) = false -> T "abc" = T u).
Proof.
  assert (H : video_id_of_response 200 (jira_body "https://www.youtube.com/watch?v=abc")
              = Ok (T "abc")) by (vm_compute; reflexivity).
  split; [exact H|].
  exact (video_id_after_last_marker 200 _ _ H).
Defined.

(** A response of status 200 whose body has no ['fields'], or whose
    ['fields'] has no ['description'], falls through the [.get] defaults to
    the empty URL: the run stops with [ValueError] (no video URL). *)
Theorem video_id_missing_description kvs
    (H : od_get "fields" kvs = None \/
         exists f, od_get "fields" kvs = Some (JObj f) /\ od_get "description" f = None) :
  video_id_of_response 200 (JObj kvs) = Err ValueError.
Proof.
  destruct H as [H|(f & Hf & Hd)]; unfold video_id_of_response, video_url_of; simpl.
  - rewrite H. reflexivity.
  - rewrite Hf. simpl. rewrite Hd. reflexivity.
Qed.

Lemma video_id_missing_description_witness :
  video_id_of_response 200 (JObj [("fields", JObj [("summary", JStr "x")])]) = Err ValueError.
Proof.
  apply video_id_missing_description. right. exists [("summary", JStr "x")].
  split; reflexivity.
Defined.

(** A ['description'] that is [null] (no description in the ticket) makes
    [.get] fail with [AttributeError]; an empty ['content'] list makes [[0]]
    fail with [IndexError].  Neither is the intended [ValueError]. *)
Theorem video_id_malformed_description kvs f
    (Hf : od_get "fields" kvs = Some (JObj f)) :
  (od_get "description" f = Some JNull ->
     video_id_of_response 200 (JObj kvs) = Err AttributeError) /\
  (forall d, od_get "description" f = Some (JObj d) -> od_get "content" d = Some (JArr []) ->
     video_id_of_response 200 (JObj kvs) = Err IndexError).
Proof.
  unfold video_id_of_response, video_url_of; simpl. rewrite Hf. simpl. split.
  - intros Hd. rewrite Hd. reflexivity.
  - intros d Hd Hc. rewrite Hd. simpl. rewrite Hc. reflexivity.
Qed.

Lemma video_id_malformed_description_witness :
  video_id_of_response 200 (JObj [("fields", JObj [("description", JNull)])])
    = Err AttributeError.
Proof.
  exact (proj1 (video_id_malformed_description [("fields", JObj [("description", JNull)])]
                  [("description", JNull)] eq_refl) eq_refl).
Defined.

(* ------------------------------------------------------------------ *)
(** ** What [update_yaml_with_new_entry] changes *)

Lemma od_setitem_keys {V} k (v v0 : V) d :
  od_get k d = Some v0 -> map fst (od_setitem k v d) = map fst d.
Proof.
  induction d as [|[k' v'] d IH]; simpl; [discriminate|].
  destruct (String.eqb k' k); simpl; [reflexivity|]. intros H. now rewrite IH.
Qed.

Lemma set_in_en_frame y k v y' :
  set_in_en y k v = Ok y' ->
  exists top enk top' enk',
    y = YMap top /\ od_get "en" top = Some (YMap enk) /\
    y' = YMap top' /\ od_get "en" top' = Some (YMap enk') /\
    map fst top' = map fst top /\
    (forall j, j <> "en"%string -> od_get j top' = od_get j top) /\
    (forall j, j <> k -> od_get j enk' = od_get j enk).
Proof.
  unfold set_in_en. intros H.
  destruct y as [top| |]; simpl in H; try discriminate.
  destruct (od_get "en" top) as [en|] eqn:Een; simpl in H; [|discriminate].
  destruct en as [enk| |]; simpl in H; try discriminate.
  injection H as <-.
  exists top, enk, (od_setitem "en" (YMap (od_setitem k v enk)) top), (od_setitem k v enk).
  repeat split; auto.
  - apply od_get_setitem.
  - eapply od_setitem_keys; eauto.
  - intros j Hj. now apply od_get_setitem_other.
  - intros j Hj. now apply od_get_setitem_other.
Qed.

Lemma update_yaml_two_sets y sel e y' :
  update_yaml_with_new_entry y sel e = Ok y' ->
  exists y1 nd, (y1 = y \/ set_in_en y "docs" (YMap []) = Ok y1) /\
                set_in_en y1 "docs" (YMap nd) = Ok y'.
Proof.
  unfold update_yaml_with_new_entry. intros H.
  match type of H with rbind ?m _ = _ => destruct m as [missing|er] end;
    cbn [rbind] in H; [|discriminate].
  match type of H with rbind ?m _ = _ => destruct m as [y1|er] eqn:E1 end;
    cbn [rbind] in H; [|discriminate].
  do 4 (match type of H with rbind ?m _ = _ => destruct m as [?|?] end;
          cbn [rbind] in H; [|discriminate]).
  exists y1. eexists. split; [|exact H].
  destruct missing; [right; exact E1 | left; now injection E1].
Qed.

(** A successful update changes nothing outside [yaml_data['en']['docs']]:
    the top-level keys stay in place with their values (['en'] apart), and
    so do the other keys of ['en']. *)
Theorem update_yaml_touches_only_docs y sel e y'
    (H : update_yaml_with_new_entry y sel e = Ok y') :
  exists top enk top' enk',
    y = YMap top /\ od_get "en" top = Some (YMap enk) /\
    y' = YMap top' /\ od_get "en" top' = Some (YMap enk') /\
    map fst top' = map fst top /\
    (forall j, j <> "en"%string -> od_get j top' = od_get j top) /\
    (forall j, j <> "docs"%string -> od_get j enk' = od_get j enk).
Proof.
  destruct (update_yaml_two_sets _ _ _ _ H) as (y1 & nd & [->|E1] & E2).
  - exact (set_in_en_frame _ _ _ _ E2).
  - destruct (set_in_en_frame _ _ _ _ E1) as (t0 & k0 & t1 & k1 & -> & G0 & -> & G1 & K1 & O1 & P1).
    destruct (set_in_en_frame _ _ _ _ E2) as (t1' & k1' & t2 & k2 & Eq & G1' & -> & G2 & K2 & O2 & P2).
    injection Eq as <-. rewrite G1 in G1'. injection G1' as <-.
    exists t0, k0, t2, k2. repeat split; auto.
    + now rewrite K2.
    + intros j Hj. rewrite O2, O1 by exact Hj. reflexivity.
    + intros j Hj. rewrite P2, P1 by exact Hj. reflexivity.
Qed.

Lemma update_yaml_touches_only_docs_witness :
  update_yaml_with_new_entry
    (YMap [("meta", YStr "m");
                 ("en", YMap [("title", YStr "t");
                              ("docs", YMap [("B", YOther); ("C", YOther)])]);
                 ("fr", YOther)])
    "B" [("new", YStr "r")]
  = Ok (YMap [("meta", YStr "m");
                 ("en", YMap [("title", YStr "t");
                              ("docs", YMap [("B", YOther); ("new", YStr "r"); ("C", YOther)])]);
                 ("fr", YOther)]) /\
  exists top enk top' enk',
    (YMap [("meta", YStr "m");
                 ("en", YMap [("title", YStr "t");
                              ("docs", YMap [("B", YOther); ("C", YOther)])]);
                 ("fr", YOther)]) = YMap top /\
    od_get "en" top = Some (YMap enk) /\
    (YMap [("meta", YStr "m");
                 ("en", YMap [("title", YStr "t");
                              ("docs", YMap [("B", YOther); ("new", YStr "r"); ("C", YOther)])]);
                 ("fr", YOther)]) = YMap top' /\
    od_get "en" top' = Some (YMap enk') /\
    map fst top' = map fst top /\
    (forall j, j <> "en"%string -> od_get j top' = od_get j top) /\
    (forall j, j <> "docs"%string -> od_get j enk' = od_get j enk).
Proof.
  assert (H : update_yaml_with_new_entry
    (YMap [("meta", YStr "m");
                 ("en", YMap [("title", YStr "t");
                              ("docs", YMap [("B", YOther); ("C", YOther)])]);
                 ("fr", YOther)])
    "B" [("new", YStr "r")]
  = Ok (YMap [("meta", YStr "m");
                 ("en", YMap [("title", YStr "t");
                              ("docs", YMap [("B", YOther); ("new", YStr "r"); ("C", YOther)])]);
                 ("fr", YOther)])) by (vm_compute; reflexivity).
  split; [exact H|]. exact (update_yaml_touches_only_docs _ _ _ _ H).
Defined.

Lemma update_yaml_creates_docs_witness :
  update_yaml_with_new_entry (YMap [("en", YMap [("other", YOther)])]) "B" (new_yaml_entry vd0)
  = Ok (YMap (od_setitem "en" (YMap (od_setitem "docs" (YMap []) [("other", YOther)]))
                [("en", YMap [("other", YOther)])])).
Proof.
  exact (update_yaml_creates_docs [("en", YMap [("other", YOther)])] [("other", YOther)]
           "B" (new_yaml_entry vd0) eq_refl eq_refl).
Defined.

(* ------------------------------------------------------------------ *)
(** ** The files a run writes *)

Section OnlyWrites.
Variable P : string -> Prop.

Lemma ow_pure {A} (m : M A) : (forall s, snd (m s) = s) -> only_writes P m.
Proof.
  intros H s. exists []. rewrite H, app_nil_r. split; [reflexivity|].
  split; [intros q []|reflexivity].
Qed.

Lemma ow_mret {A} (a : A) : only_writes P (mret a).
Proof. apply ow_pure. reflexivity. Qed.

Lemma ow_lift {A} (r : result A) : only_writes P (lift r).
Proof. apply ow_pure. reflexivity. Qed.

Lemma ow_path_exists p : only_writes P (path_exists p).
Proof. apply ow_pure. reflexivity. Qed.

Lemma ow_read_text p : only_writes P (read_text p).
Proof. apply ow_pure. intros s. unfold read_text. now destruct (files s p) as [[]|]. Qed.

Lemma ow_load_json p : only_writes P (load_json p).
Proof. apply ow_pure. intros s. unfold load_json. now destruct (files s p) as [[]|]. Qed.

Lemma ow_load_yaml p : only_writes P (load_yaml p).
Proof. apply ow_pure. intros s. unfold load_yaml. now destruct (files s p) as [[]|]. Qed.

Lemma ow_write p c : P p -> only_writes P (write_file p c).
Proof.
  intros Hp s. exists [p]. simpl. split; [reflexivity|]. split.
  - intros q [<-|[]]. exact Hp.
  - intros q Hq. destruct (String.eqb q p) eqn:E; [|reflexivity].
    apply String.eqb_eq in E. subst q. exfalso. apply Hq. now left.
Qed.

Lemma ow_bind {A B} (m : M A) (k : A -> M B) :
  only_writes P m -> (forall a, only_writes P (k a)) -> only_writes P (mbind m k).
Proof.
  intros Hm Hk s. unfold mbind.
  destruct (Hm s) as (w1 & W1 & I1 & F1).
  destruct (m s) as [[a|e] s1]; simpl in W1, I1, F1.
  - destruct (Hk a s1) as (w2 & W2 & I2 & F2).
    exists (w1 ++ w2). split; [rewrite W2, W1; symmetry; apply app_assoc|]. split.
    + intros q Hq. apply in_app_or in Hq as [Hq|Hq]; auto.
    + intros q Hq. rewrite F2, F1; [reflexivity| |]; intros Hi; apply Hq, in_or_app; auto.
  - exists w1. simpl. auto.
Qed.

End OnlyWrites.

Lemma ow_mono {A} (P Q : string -> Prop) (m : M A) :
  (forall q, P q -> Q q) -> only_writes P m -> only_writes Q m.
Proof.
  intros HPQ H s. destruct (H s) as (w & W & I & F). exists w. auto.
Qed.

Ltac ow_steps :=
  repeat first
    [ apply ow_bind; [|intros ?]
    | apply ow_mret | apply ow_lift | apply ow_path_exists | apply ow_read_text
    | apply ow_load_json | apply ow_load_yaml
    | apply ow_write; solve [auto 6] ].

Lemma ow_patch_parent_page name page :
  only_writes (fun q => q = page) (patch_parent_page name page).
Proof.
  unfold patch_parent_page. apply ow_bind; [apply ow_path_exists|]. intros [|].
  - ow_steps.
  - apply ow_mret.
Qed.

Lemma ow_patch_pages name pages :
  only_writes (fun q => In q pages) (patch_pages name pages).
Proof.
  induction pages as [|page rest IH]; [apply ow_mret|].
  rewrite patch_pages_cons. apply ow_bind.
  - eapply ow_mono; [|apply ow_patch_parent_page]. intros q ->. now left.
  - intros _. eapply ow_mono; [|exact IH]. intros q Hq. now right.
Qed.

(** From the placement prompt on (lines 192-276), whatever the operator
    types and whatever the files hold, every path a run writes is the
    menu, the locale file, the new page, a page of the form
    [cld_docs/app/views/documentation/<section>.html.md] or the new
    partial card, and every other file is left as it was. *)
Theorem run_writes_only vd video_id index :
  only_writes (run_paths vd) (create_new_documentation_page vd video_id index).
Proof.
  unfold create_new_documentation_page, run_paths.
  apply ow_bind.
  { unfold suggest_placement. ow_steps. }
  intros [sel pp]. unfold mutate_and_serialize, update_json_menu, update_yaml_file,
    write_pages, create_page.
  ow_steps.
  unfold add_partial_doc_to_parent_pages.
  eapply ow_mono; [|apply ow_patch_pages].
  intros q Hq. apply in_map_iff in Hq as (sec & <- & _). right; right; right; left.
  now exists sec.
Qed.

(** The menu is dumped before the locale file is read: when the locale file
    is missing, or its update raises, the run stops with that error and the
    updated menu is the only file written. *)
Theorem yaml_failure_after_menu_written vd video_id sel pp menu s e
    (Hf : files s json_path = Some (CMenu menu))
    (Hy : (files s yaml_path = None /\ e = FileNotFoundError) \/
          exists y, files s yaml_path = Some (CYaml y) /\
                    update_yaml_with_new_entry y sel (new_yaml_entry vd) = Err e) :
  mutate_and_serialize vd video_id sel pp s =
  (Err e, mkState (fun q => if String.eqb q json_path
                            then Some (CMenu (snd (add_to_menu sel (menu_entry vd) menu)))
                            else files s q)
                  (written s ++ [json_path])).
Proof.
  unfold mutate_and_serialize, update_json_menu, update_yaml_file.
  unfold mbind at 1 2. unfold load_json at 1. rewrite Hf.
  unfold mbind at 1. unfold write_file at 1.
  unfold mbind at 1. unfold load_yaml at 1. cbn [files].
  replace (String.eqb yaml_path json_path) with false by reflexivity.
  destruct Hy as [[Hn ->]|(y & Hy & Hu)].
  - rewrite Hn. reflexivity.
  - rewrite Hy. unfold mbind at 1, lift at 1. rewrite Hu. reflexivity.
Qed.

Lemma yaml_failure_after_menu_written_witness :
  mutate_and_serialize vd0 (T "vid") "B" ["A"]
    (mkState (fun p => if String.eqb p yaml_path then Some (CYaml (YMap [])) else files s0 p) [])
  = (Err KeyError,
     mkState (fun q => if String.eqb q json_path
                       then Some (CMenu (snd (add_to_menu "B" (menu_entry vd0) menu0)))
                       else files (mkState (fun p => if String.eqb p yaml_path
                                                     then Some (CYaml (YMap []))
                                                     else files s0 p) []) q)
             ([] ++ [json_path])).
Proof.
  apply yaml_failure_after_menu_written.
  - reflexivity.
  - right. exists (YMap []). split; reflexivity.
Defined.

(* ------------------------------------------------------------------ *)
(** ** Where a parent page gets its new reference (lines 123-136) *)

Lemma filter_nil_in {A} (f : A -> bool) l :
  (forall a, In a l -> f a = false) -> filter f l = [].
Proof.
  induction l as [|a l IH]; intros H; simpl; [reflexivity|].
  rewrite (H a (or_introl eq_refl)). apply IH. intros b Hb. apply H. now right.
Qed.

Lemma prefixb_nonempty_nil (p : text) : p <> [] -> prefixb p [] = false.
Proof. destruct p; [contradiction|reflexivity]. Qed.

(** [rindex] returns the last position where [sub] starts. *)
Lemma rindex_last sub s k :
  sub <> [] ->
  prefixb sub (skipn k s) = true ->
  (forall j, k < j -> prefixb sub (skipn j s) = false) ->
  rindex sub s = Ok k.
Proof.
  intros Hne Hk Hl. unfold rindex.
  assert (Hle : k <= length s).
  { destruct (Nat.le_gt_cases k (length s)) as [?|Hgt]; [assumption|].
    rewrite skipn_all2 in Hk by lia. now rewrite prefixb_nonempty_nil in Hk. }
  replace (S (length s)) with (S k + (length s - k)) by lia.
  rewrite seq_app, filter_app, seq_S, filter_app. simpl (filter _ [0 + k]).
  rewrite Hk. rewrite (filter_nil_in _ (seq (0 + S k) _)).
  2:{ intros j Hj. apply in_seq in Hj. apply Hl. lia. }
  rewrite app_nil_r.
  destruct (filter _ (seq 0 k)) as [|x l]; [reflexivity|].
  rewrite <- app_comm_cons. cbv beta iota. rewrite app_comm_cons, last_last. reflexivity.
Qed.

(** [s.index(c, start)] returns the first position at or after [start]
    holding [c]. *)
Lemma index_from_first c s start k :
  start <= k -> nth_error s k = Some c ->
  (forall j, start <= j < k -> nth_error s j <> Some c) ->
  index_from c s start = Ok k.
Proof.
  intros Hsk Hc Hf. unfold index_from.
  assert (Hk : k < length s) by (apply nth_error_Some; congruence).
  replace (length s - start) with ((k - start) + S (length s - S k)) by lia.
  rewrite seq_app, filter_app.
  rewrite (filter_nil_in _ (seq start (k - start))).
  2:{ intros j Hj. apply in_seq in Hj.
      destruct (nth_error s j) as [d|] eqn:Ej; [|reflexivity].
      apply Ascii.eqb_neq. intros ->. apply (Hf j); [lia|exact Ej]. }
  replace (start + (k - start)) with k by lia. simpl.
  rewrite Hc, Ascii.eqb_refl. reflexivity.
Qed.

Lemma index_from_none c s start :
  (forall j, start <= j -> nth_error s j <> Some c) ->
  index_from c s start = Err ValueError.
Proof.
  intros Hf. unfold index_from. rewrite filter_nil_in; [reflexivity|].
  intros j Hj. apply in_seq in Hj.
  destruct (nth_error s j) as [d|] eqn:Ej; [|reflexivity].
  apply Ascii.eqb_neq. intros ->. apply (Hf j); [lia|exact Ej].
Qed.

Lemma partialdoc_ne : partialdoc <> [].
Proof. discriminate. Qed.

(** A parent page whose last [{partialdoc}] starts at [lp], with the first
    newline at or after [lp] at [np], is rewritten with
    [{partialdoc}<name>{partialdoc}] and a newline inserted right after that
    newline; the page is the only file written. *)
Theorem patch_inserts_after_last_reference name page s t lp np
    (Hp : files s page = Some (CText t))
    (Hlp : prefixb partialdoc (skipn lp t) = true)
    (Hlast : forall j, lp < j -> prefixb partialdoc (skipn j t) = false)
    (Hle : lp <= np) (Hnl : nth_error t np = Some nl)
    (Hfirst : forall j, lp <= j < np -> nth_error t j <> Some nl) :
  patch_parent_page name page s =
  (Ok tt, mkState (fun q => if String.eqb q page
                            then Some (CText (firstn (S np) t ++
                                               (partialdoc ++ T name ++ partialdoc ++ [nl]) ++
                                               skipn (S np) t))
                            else files s q)
                  (written s ++ [page])).
Proof.
  unfold patch_parent_page, mbind, path_exists, exists_in, read_text, lift.
  rewrite Hp. cbv beta iota. rewrite Hp.
  rewrite (rindex_last _ _ _ partialdoc_ne Hlp Hlast).
  rewrite (index_from_first _ _ _ _ Hle Hnl Hfirst). reflexivity.
Qed.

Lemma patch_inserts_after_last_reference_witness :
  fst (patch_parent_page "card" page_A
         (mkState (fun q => if String.eqb q page_A
                              then Some (CText (partialdoc ++ T "a" ++ [nl] ++ partialdoc ++ [nl]))
                              else None) [])) = Ok tt /\
  files (snd (patch_parent_page "card" page_A
                (mkState (fun q => if String.eqb q page_A
                                     then Some (CText (partialdoc ++ T "a" ++ [nl] ++ partialdoc ++ [nl]))
                                     else None) []))) page_A
    = Some (CText (partialdoc ++ T "a" ++ [nl] ++ partialdoc ++ [nl]
                   ++ partialdoc ++ T "card" ++ partialdoc ++ [nl])).
Proof.
  rewrite (patch_inserts_after_last_reference "card" page_A _
             (partialdoc ++ T "a" ++ [nl] ++ partialdoc ++ [nl]) 14 26);
    [ split; reflexivity | reflexivity | reflexivity
    | intros j Hj; destruct (Nat.lt_ge_cases j 27) as [Hj'|Hj'];
      [ do 27 (destruct j as [|j]; [first [lia | reflexivity]|]); lia
      | rewrite skipn_all2 by (vm_compute; lia); reflexivity ]
    | lia | reflexivity
    | intros j Hj E; do 27 (destruct j as [|j]; [first [lia | discriminate E]|]); lia ].
Defined.

(** When no newline follows the last [{partialdoc}] of an existing parent
    page, [content.index('\n', last_partial)] raises [ValueError]: nothing
    is written and the state is left as it was. *)
Theorem patch_no_newline_after_reference_raises name page s t lp
    (Hp : files s page = Some (CText t))
    (Hlp : prefixb partialdoc (skipn lp t) = true)
    (Hlast : forall j, lp < j -> prefixb partialdoc (skipn j t) = false)
    (Hnone : forall j, lp <= j -> nth_error t j <> Some nl) :
  patch_parent_page name page s = (Err ValueError, s).
Proof.
  unfold patch_parent_page, mbind, path_exists, exists_in, read_text, lift.
  rewrite Hp. cbv beta iota. rewrite Hp.
  rewrite (rindex_last _ _ _ partialdoc_ne Hlp Hlast).
  rewrite (index_from_none _ _ _ Hnone). reflexivity.
Qed.

Lemma patch_no_newline_after_reference_raises_witness :
  patch_parent_page "card" page_A
    (mkState (fun q => if String.eqb q page_A
                       then Some (CText (partialdoc ++ [nl] ++ partialdoc ++ T "a"))
                       else None) [])
  = (Err ValueError,
     mkState (fun q => if String.eqb q page_A
                       then Some (CText (partialdoc ++ [nl] ++ partialdoc ++ T "a"))
                       else None) []).
Proof.
  apply (patch_no_newline_after_reference_raises "card" page_A _
           (partialdoc ++ [nl] ++ partialdoc ++ T "a") 13);
    [ reflexivity | reflexivity
    | intros j Hj; destruct (Nat.lt_ge_cases j 26) as [Hj'|Hj'];
      [ do 26 (destruct j as [|j]; [first [lia | reflexivity]|]); lia
      | rewrite skipn_all2 by (vm_compute; lia); reflexivity ]
    | intros j Hj E; destruct (Nat.lt_ge_cases j 26) as [Hj'|Hj'];
      [ do 26 (destruct j as [|j]; [first [lia | discriminate E]|]); lia
      | assert (N : nth_error (partialdoc ++ [nl] ++ partialdoc ++ T "a") j = None)
          by (apply nth_error_None; vm_compute; lia);
        rewrite N in E; discriminate E ] ].
Defined.

(* ------------------------------------------------------------------ *)
(** ** The partial card (lines 138-161) *)

Lemma run_lit_none p t : prefixb p t = false -> run (m_lit p) t = None.
Proof. intros H. unfold run, m_lit. now rewrite H. Qed.

Lemma run_lit_seq_none p m2 t :
  prefixb p t = false -> run (m_seq (m_lit p) m2) t = None.
Proof. intros H. unfold run, m_seq, m_lit. now rewrite H. Qed.

Lemma pat_vidId_consuming : consuming pat_vidId.
Proof.
  unfold pat_vidId. apply seq_consuming; [apply lit_consuming|].
  apply seq_suffixing; [apply star_suffixing|].
  apply seq_suffixing; [apply consuming_suffixing, chr_consuming|].
  apply seq_suffixing; [apply lazy_suffixing|apply consuming_suffixing, chr_consuming].
Qed.

Lemma pat_h6_consuming : consuming pat_h6.
Proof.
  unfold pat_h6. apply seq_consuming; [apply lit_consuming|].
  apply seq_suffixing; [apply lazy_suffixing|apply lit_suffixing].
Qed.

Lemma pat_small_consuming : consuming pat_small.
Proof.
  unfold pat_small. apply seq_consuming; [apply lit_consuming|].
  apply seq_suffixing; [apply lazy_suffixing|apply lit_suffixing].
Qed.

(** A card template holding none of the four markers the script edits
    ([upload_assets_in_react_tutorial], [vidId =], the [tut_header]
    heading and [<small>]) is copied unchanged: none of the video's
    details reach the new card. *)
Theorem partial_card_no_markers vd c
    (H1 : infixb (T "upload_assets_in_react_tutorial") c = false)
    (H2 : infixb (T "vidId =") c = false)
    (H3 : infixb h6_open c = false)
    (H4 : infixb (T "<small>") c = false) :
  partial_card_text vd c = c.
Proof.
  unfold partial_card_text, str_replace. cbv zeta.
  rewrite (re_sub_no_match (m_lit (T "upload_assets_in_react_tutorial")) _ c
             (lit_consuming _ _)).
  2:{ intros k. apply run_lit_none, infixb_false_skipn, H1. }
  rewrite (re_sub_no_match pat_vidId _ c pat_vidId_consuming).
  2:{ intros k. apply run_lit_seq_none, infixb_false_skipn, H2. }
  rewrite (re_sub_no_match pat_h6 _ c pat_h6_consuming).
  2:{ intros k. apply run_lit_seq_none, infixb_false_skipn, H3. }
  apply re_sub_no_match; [exact pat_small_consuming|].
  intros k. apply run_lit_seq_none, infixb_false_skipn, H4.
Qed.

Lemma partial_card_no_markers_witness :
  partial_card_text vd0 (T "<p>A card</p>") = T "<p>A card</p>".
Proof. apply partial_card_no_markers; reflexivity. Defined.

(* ------------------------------------------------------------------ *)
(** ** Every marker is substituted *)

(** Line 259: [re.sub] with the GitHub-link pattern cuts the page into gaps
    and link spans; every span is replaced by [[githublink]: <url>] and
    every byte of the gaps is kept. *)
Theorem githublink_sub_replaces_every_span (github_url content : text) :
  exists segs last,
    content = original segs last /\
    segments_ok pat_githublink segs last /\
    re_sub pat_githublink (repl_githublink github_url) content
    = replaced (T "[githublink]: " ++ github_url) segs last.
Proof.
  apply (re_sub_segments pat_githublink (repl_githublink github_url)
           pat_githublink_consuming (T "[githublink]: " ++ github_url) (fun _ => eq_refl)
           (length content) content). lia.
Qed.

(** Lines 155-158: each of the four edits of the partial card cuts the text
    it is given into gaps and matched spans and replaces every span (not
    only the first) by the video's value, keeping every byte of the gaps. *)
Theorem card_edits_replace_every_span vd (c : text) :
  (exists segs last,
     c = original segs last /\
     segments_ok (m_lit (T "upload_assets_in_react_tutorial")) segs last /\
     str_replace (T "upload_assets_in_react_tutorial") (T (file_name vd)) c
     = replaced (T (file_name vd)) segs last) /\
  (exists segs last,
     c = original segs last /\ segments_ok pat_vidId segs last /\
     re_sub pat_vidId (fun _ => T "vidId = " ++ [dq] ++ T (public_id vd) ++ [dq]) c
     = replaced (T "vidId = " ++ [dq] ++ T (public_id vd) ++ [dq]) segs last) /\
  (exists segs last,
     c = original segs last /\ segments_ok pat_h6 segs last /\
     re_sub pat_h6 (fun _ => h6_open ++ T (partial_card_title vd) ++ T "</h6>") c
     = replaced (h6_open ++ T (partial_card_title vd) ++ T "</h6>") segs last) /\
  (exists segs last,
     c = original segs last /\ segments_ok pat_small segs last /\
     re_sub pat_small (fun _ => T "<small>" ++ T (partial_card_description vd) ++ T "</small>") c
     = replaced (T "<small>" ++ T (partial_card_description vd) ++ T "</small>") segs last).
Proof.
  split; [|split; [|split]].
  - unfold str_replace.
    apply (re_sub_segments (m_lit (T "upload_assets_in_react_tutorial")) _
             (lit_consuming _ _) (T (file_name vd)) (fun _ => eq_refl) (length c) c). lia.
  - apply (re_sub_segments pat_vidId _ pat_vidId_consuming _ (fun _ => eq_refl)
             (length c) c). lia.
  - apply (re_sub_segments pat_h6 _ pat_h6_consuming _ (fun _ => eq_refl)
             (length c) c). lia.
  - apply (re_sub_segments pat_small _ pat_small_consuming _ (fun _ => eq_refl)
             (length c) c). lia.
Qed.
